(** * Markdoc table of contents and active-section tracking

    A shallow embedding of the heading extraction ([collectMarkdocHeadings]),
    the table-of-contents builder ([createTOC]), the heading id generator
    ([generateID]) and the scroll-driven active-section hook
    ([useTableOfContents]) of the documentation renderer.

    Conventions of the embedding:
    - JavaScript numbers are integers ([Z]); pixel offsets and heading levels
      are whole numbers in every use this development looks at.
    - JavaScript strings are [string]s whose characters are code units in the
      Latin-1 range (0..255); the whitespace class and the case mapping are
      the restrictions of [\s] and [toLowerCase] to that range.
    - [undefined] is a value ([VUndefined]); reading an absent property
      yields it. *)

From stdpp Require Import base numbers option list strings gmap sorting.
From Stdlib Require Import Ascii.

Set Warnings "-register-all".

Local Open Scope string_scope.
Local Open Scope Z_scope.
Local Open Scope list_scope.

(** ** Values and document trees *)

(** The scalar JavaScript values that occur as attribute values and as leaves
    of a rendered tree. *)
Inductive value : Type :=
  | VUndefined
  | VNull
  | VBool (b : bool)
  | VNum (n : Z)
  | VStr (s : string).

#[global] Instance value_eq_dec : EqDecision value.
Proof. solve_decision. Defined.

(** JavaScript truthiness, as tested by [!node] and [attributes.id && ...]. *)
Definition truthy (v : value) : bool :=
  match v with
  | VUndefined | VNull => false
  | VBool b => b
  | VNum n => negb (Z.eqb n 0)
  | VStr s => negb (String.eqb s "")
  end.

(** [typeof v === 'string'] *)
Definition is_string (v : value) : bool :=
  match v with VStr _ => true | _ => false end.

(** A rendered Markdoc tree node: a scalar leaf (text, [null], [undefined],
    ...) or a tag, which always carries a name, an attribute object and an
    array of children. *)
Inductive Node : Type :=
  | Scalar (v : value)
  | Tag (name : string) (attributes : gmap string value) (children : list Node).

(** Property read [o.k] on an attribute object. *)
Definition prop (o : gmap string value) (k : string) : value :=
  default VUndefined (o !! k).

(** ** Heading extraction *)

(** [type MarkdocHeading = { title: string; id: string; level: number }].
    A heading object is built as [{ ...node.attributes, title }], so [id] and
    [level] hold whatever the attribute object holds under these keys. *)
Record MarkdocHeading : Type := mkHeading {
  h_title : string;
  h_id : value;
  h_level : value;
}.

(** [{ ...attributes, title }], read through the three fields in use. *)
Definition heading_of (attributes : gmap string value) (title : string) : MarkdocHeading :=
  {| h_title := title; h_id := prop attributes "id"; h_level := prop attributes "level" |}.

(** [collectMarkdocHeadings(node, sections)].  The source pushes onto the one
    shared [sections] array and returns it; the array is threaded through
    here.  A falsy node returns at once; a truthy scalar has neither [name]
    nor [children], so it adds nothing either. *)
Fixpoint collectMarkdocHeadings (node : Node) (sections : list MarkdocHeading)
  : list MarkdocHeading :=
  match node with
  | Scalar v => if negb (truthy v) then sections else sections
  | Tag name attributes children =>
      let sections :=
        if String.eqb name "Heading" then
          match children with
          | Scalar (VStr title) :: _ => sections ++ [heading_of attributes title]
          | _ => sections
          end
        else sections in
      fold_left (fun sections child => collectMarkdocHeadings child sections)
                children sections
  end.

(** ** Table of contents *)

(** [type TOCEntry = { title: string; slug: string; children?: TOC }].  The
    fields are values because [createTOC] can build an entry that has only
    [children]; its [title] and [slug] then read as [undefined]. *)
Inductive TOCEntry : Type := mkTOCEntry {
  title : value;
  slug : value;
  children : list TOCEntry;
}.

Abbreviation TOC := (list TOCEntry).

(** [{ title: heading.title, slug: heading.id, children: [] }] *)
Definition entry_of (heading : MarkdocHeading) : TOCEntry :=
  {| title := VStr (h_title heading); slug := h_id heading; children := [] |}.

(** [toc[i] = e] on a JavaScript array: a write inside the array replaces the
    slot and a write at index [length] appends.  A write further out would
    leave empty slots, which a list does not have; [createTOC] never does
    one (lemma [createTOC_loop_index]) and the array is kept as it is
    there. *)
Definition array_set (toc : TOC) (i : nat) (e : TOCEntry) : TOC :=
  if decide (i < length toc)%nat then <[i := e]> toc
  else if decide (i = length toc) then toc ++ [e]
  else toc.

(** One iteration of the [for (const heading of headings)] loop of
    [createTOC]; the loop state is the array [toc] and the cursor
    [h2Index]. *)
Definition createTOC_step (st : TOC * nat) (heading : MarkdocHeading) : TOC * nat :=
  let '(toc, h2Index) := st in
  if decide (h_level heading = VNum 2) then
    let toc := toc ++ [entry_of heading] in
    (toc, (length toc - 1)%nat)
  else if decide (h_level heading = VNum 3) then
    let parent := toc !! h2Index in
    (array_set toc h2Index
       {| title := from_option title VUndefined parent;
          slug := from_option slug VUndefined parent;
          children := from_option children [] parent ++ [entry_of heading] |},
     h2Index)
  else (toc, h2Index).

Definition createTOC_loop (headings : list MarkdocHeading) (st : TOC * nat) : TOC * nat :=
  fold_left createTOC_step headings st.

Definition createTOC (node : Node) : TOC :=
  let headings := collectMarkdocHeadings node [] in
  fst (createTOC_loop headings ([], 0%nat)).

(** ** Heading ids *)

(** [\s] on Latin-1 code units: tab, line feed, vertical tab, form feed,
    carriage return, space and the no-break space. *)
Definition is_whitespace (c : ascii) : bool :=
  let n := N_of_ascii c in
  ((9 <=? n) && (n <=? 13) || (n =? 32) || (n =? 160))%N.

(** [.replace(/[?]/g, '')] *)
Fixpoint remove_question_marks (s : string) : string :=
  match s with
  | EmptyString => EmptyString
  | String c s' =>
      if Ascii.eqb c "?"%char then remove_question_marks s'
      else String c (remove_question_marks s')
  end.

(** [.replace(/\s+/g, '-')]: every maximal run of whitespace becomes one
    hyphen.  [in_run] tells that the previous character was whitespace, so
    that the hyphen of the run is already out. *)
Fixpoint replace_whitespace_from (in_run : bool) (s : string) : string :=
  match s with
  | EmptyString => EmptyString
  | String c s' =>
      if is_whitespace c then
        if in_run then replace_whitespace_from true s'
        else String "-"%char (replace_whitespace_from true s')
      else String c (replace_whitespace_from false s')
  end.

Definition replace_whitespace_runs (s : string) : string :=
  replace_whitespace_from false s.

(** The upper-case letters of Latin-1: A..Z, and the accented capitals
    U+00C0..U+00DE without the multiplication sign U+00D7. *)
Definition is_upper (c : ascii) : bool :=
  let n := N_of_ascii c in
  ((65 <=? n) && (n <=? 90) || (192 <=? n) && (n <=? 214)
   || (216 <=? n) && (n <=? 222))%N.

Definition lower_char (c : ascii) : ascii :=
  if is_upper c then ascii_of_N (N_of_ascii c + 32) else c.

(** [.toLowerCase()] *)
Fixpoint toLowerCase (s : string) : string :=
  match s with
  | EmptyString => EmptyString
  | String c s' => String (lower_char c) (toLowerCase s')
  end.

(** The text of a child that passes [typeof child === 'string']. *)
Definition string_child (child : Node) : option string :=
  match child with
  | Scalar (VStr s) => Some s
  | _ => None
  end.

(** [children.filter((child) => typeof child === 'string').join(' ')] *)
Definition join_string_children (children : list Node) : string :=
  String.concat " " (omap string_child children).

(** The id derived from the text of a heading: the second [return] of
    [generateID]. *)
Definition derived_id (children : list Node) : string :=
  toLowerCase
    (replace_whitespace_runs
       (remove_question_marks (join_string_children children))).

Definition generateID (children : list Node) (attributes : gmap string value) : string :=
  let id := prop attributes "id" in
  match id with
  | VStr s => if truthy id then s else derived_id children
  | _ => derived_id children
  end.

(** ** Active-section tracking *)

(** [type ContentHeading = { id: string; top: number; level: number }] *)
Record ContentHeading : Type := mkContentHeading {
  id : string;
  top : Z;
  level : Z;
}.

#[global] Instance ContentHeading_eq_dec : EqDecision ContentHeading.
Proof. solve_decision. Defined.

(** The two pieces of state of the hook [useTableOfContents]. *)
Record Tracker : Type := mkTracker {
  currentSection : value;
  headings : list ContentHeading;
}.

(** What [onScroll] reads from the window: [window.pageYOffset] and the
    number parsed from the [--scroll-margin-top] style property. *)
Record Viewport : Type := mkViewport {
  pageYOffset : Z;
  scrollMt : Z;
}.

(** The initial state: [useState(toc[0]?.slug)] and [useState([])]. *)
Definition useTableOfContents (toc : TOC) : Tracker :=
  {| currentSection := from_option slug VUndefined (toc !! 0%nat);
     headings := [] |}.

(** [[...headings.filter((h) => id !== h.id), { id, top, level }]] *)
Definition registerHeading (id' : string) (top' level' : Z)
    (headings : list ContentHeading) : list ContentHeading :=
  filter (fun h => id' <> id h) headings
    ++ [{| id := id'; top := top'; level := level' |}].

(** [headings.filter((h) => id !== h.id)] *)
Definition unregisterHeading (id' : string)
    (headings : list ContentHeading) : list ContentHeading :=
  filter (fun h => id' <> id h) headings.

(** [Array.prototype.sort] with the comparator [(a, b) => a.top - b.top] is
    a stable sort by ascending [top]: insertion sort, where a heading goes in
    front of the first one that is not above it, gives that order (lemmas
    [sort_by_top_sorted], [sort_by_top_perm] and [sort_by_top_stable]). *)
Fixpoint insert_by_top (h : ContentHeading) (sorted : list ContentHeading)
  : list ContentHeading :=
  match sorted with
  | [] => [h]
  | x :: rest =>
      if top h <=? top x then h :: x :: rest
      else x :: insert_by_top h rest
  end.

Fixpoint sort_by_top (headings : list ContentHeading) : list ContentHeading :=
  match headings with
  | [] => []
  | h :: rest => insert_by_top h (sort_by_top rest)
  end.

(** The test of the [if] inside the loop of [onScroll]. *)
Definition qualifies (top' : Z) (h : ContentHeading) : bool :=
  (top' >=? top h) && ((level h =? 2) || (level h =? 3)).

(** The [for] loop of [onScroll], from the value [current] has before it. *)
Definition scan (top' : Z) (sortedHeadings : list ContentHeading)
    (current : string) : string :=
  fold_left (fun current h => if qualifies top' h then id h else current)
            sortedHeadings current.

(** [onScroll], returning the argument it passes to [setCurrentSection].
    [None] stands for the [TypeError] that reading [sortedHeadings[0].id]
    raises on an empty array. *)
Definition onScroll (headings : list ContentHeading) (vp : Viewport) : option string :=
  let sortedHeadings := sort_by_top headings in
  let top' := pageYOffset vp + scrollMt vp + 1 in
  match sortedHeadings with
  | [] => None
  | first :: _ => Some (scan top' sortedHeadings (id first))
  end.

(** The body of the effect, which React runs after every change of
    [headings], and which the scroll listener it installs repeats on every
    scroll event: nothing when the TOC or the registered headings are empty,
    otherwise [onScroll] and [setCurrentSection].  [None] is a thrown
    exception. *)
Definition recompute (toc : TOC) (vp : Viewport) (st : Tracker) : option Tracker :=
  if decide (length toc = 0%nat \/ length (headings st) = 0%nat) then Some st
  else
    current ← onScroll (headings st) vp;
    Some {| currentSection := VStr current; headings := headings st |}.

(** What can happen to a mounted tracker. *)
Inductive Event : Type :=
  | Register (id' : string) (top' level' : Z)
  | Unregister (id' : string)
  | Scroll.

(** One event, with the viewport as it is when the event is handled.  A
    registration change swaps in the new [headings] array and the effect
    runs again; a scroll event reaches [onScroll] through the listener, which
    is installed exactly when the effect got past its guard.  Every event is
    a commit of its own; several calls that fall into one commit are a
    [commit] (below), not a sequence of events. *)
Definition step (toc : TOC) (st : Tracker) (ev : Event * Viewport) : option Tracker :=
  let '(e, vp) := ev in
  match e with
  | Register id' top' level' =>
      recompute toc vp
        {| currentSection := currentSection st;
           headings := registerHeading id' top' level' (headings st) |}
  | Unregister id' =>
      recompute toc vp
        {| currentSection := currentSection st;
           headings := unregisterHeading id' (headings st) |}
  | Scroll => recompute toc vp st
  end.

Fixpoint run (toc : TOC) (st : Tracker) (evs : list (Event * Viewport)) : option Tracker :=
  match evs with
  | [] => Some st
  | ev :: evs' => st' ← step toc st ev; run toc st' evs'
  end.

(** ** The table of contents in the words of the specification *)

(** The level-3 headings at the front of [headings], up to the first
    level-2 heading: the subsections of the section that is open when
    [headings] starts. *)
Fixpoint subsections (headings : list MarkdocHeading) : list MarkdocHeading :=
  match headings with
  | [] => []
  | h :: rest =>
      if decide (h_level h = VNum 2) then []
      else if decide (h_level h = VNum 3) then h :: subsections rest
      else subsections rest
  end.

(** The table of contents of the specification: one top-level entry for each
    level-2 heading, in document order, whose children are the level-3
    headings that follow it up to the next level-2 heading, in document
    order; no other heading gives an entry. *)
Fixpoint toc_spec (headings : list MarkdocHeading) : TOC :=
  match headings with
  | [] => []
  | h :: rest =>
      if decide (h_level h = VNum 2) then
        {| title := VStr (h_title h); slug := h_id h;
           children := map entry_of (subsections rest) |} :: toc_spec rest
      else toc_spec rest
  end.

(** At least one level-2 heading precedes every level-3 heading. *)
Definition h2_precedes_h3 (headings : list MarkdocHeading) : Prop :=
  forall pre h post,
    headings = pre ++ h :: post -> h_level h = VNum 3 ->
    exists h2, h2 ∈ pre /\ h_level h2 = VNum 2.

(** An entry appears in a table of contents: at the top level or among the
    children of a top-level entry. *)
Definition appears (e : TOCEntry) (toc : TOC) : Prop :=
  e ∈ toc \/ exists parent, parent ∈ toc /\ e ∈ children parent.

(** The reading of the specification by which a level-3 heading that comes
    before any level-2 heading leaves no trace in the result. *)
Definition drops_leading_h3 (node : Node) : Prop :=
  forall pre h post,
    collectMarkdocHeadings node [] = pre ++ h :: post ->
    h_level h = VNum 3 ->
    (forall h2, h2 ∈ pre -> h_level h2 <> VNum 2) ->
    ~ appears (entry_of h) (createTOC node).

(** The entry that [createTOC] makes for level-3 headings without a parent:
    an object with [children] only. *)
Definition orphan_entry (subs : list MarkdocHeading) : TOCEntry :=
  {| title := VUndefined; slug := VUndefined; children := map entry_of subs |}.

(** [headings] is empty or opens a section with a level-2 heading. *)
Definition starts_section (headings : list MarkdocHeading) : Prop :=
  match headings with
  | [] => True
  | h :: _ => h_level h = VNum 2
  end.

(** [e] with more children at the end:
    [{ ...e, children: [...e.children, ...cs] }]. *)
Definition with_children (e : TOCEntry) (cs : TOC) : TOCEntry :=
  {| title := title e; slug := slug e; children := children e ++ cs |}.

(** ** Strings as character lists *)

Abbreviation chars := String.list_ascii_of_string.

(** [s] is empty or starts with a character that is not whitespace: a run of
    whitespace in front of [s] ends there. *)
Definition run_ends (s : string) : Prop :=
  match s with
  | EmptyString => True
  | String c _ => is_whitespace c = false
  end.

(** ** The active section in the words of the specification *)

(** Ascending [top]. *)
Definition by_top (a b : ContentHeading) : Prop := top a <= top b.

(** A heading of level 2 or 3 whose [top] is at most the threshold. *)
Definition Qualifies (thresholdY : Z) (h : ContentHeading) : Prop :=
  top h <= thresholdY /\ (level h = 2 \/ level h = 3).

#[global] Instance Qualifies_dec thresholdY h : Decision (Qualifies thresholdY h).
Proof. unfold Qualifies. apply _. Defined.

(** [thresholdY = scrollOffset + scrollMargin + 1] *)
Definition thresholdY (vp : Viewport) : Z := pageYOffset vp + scrollMt vp + 1.

(** The last heading, in sorted order, that qualifies. *)
Definition last_qualifying (vp : Viewport) (headings : list ContentHeading)
  : option ContentHeading :=
  last (filter (Qualifies (thresholdY vp)) (sort_by_top headings)).

(** The reading of the specification by which the active section is never
    the id of a level-1 heading. *)
Definition never_selects_h1 (headings : list ContentHeading) (vp : Viewport) : Prop :=
  forall h, h ∈ headings -> level h = 1 -> onScroll headings vp <> Some (id h).

(** An event that is not a registration. *)
Definition not_register (ev : Event * Viewport) : Prop :=
  match fst ev with
  | Register _ _ _ => False
  | _ => True
  end.

(** ** Sample inputs *)

Definition heading_attrs (id' : string) (level' : Z) : gmap string value :=
  <["id" := VStr id']> (<["level" := VNum level']> ∅).

Definition heading_tag (id' : string) (level' : Z) (text : string) : Node :=
  Tag "Heading" (heading_attrs id' level') [Scalar (VStr text)].

(** A document that opens with a level-3 heading. *)
Definition doc_leading_h3 : Node :=
  Tag "article" ∅ [heading_tag "install" 3 "Install"].

(** The end-to-end example of the specification. *)
Definition doc_intro_install_usage : Node :=
  Tag "article" ∅
    [ heading_tag "intro" 2 "Intro";
      Tag "p" ∅ [Scalar (VStr "Some text.")];
      heading_tag "install" 3 "Install";
      heading_tag "usage" 2 "Usage" ].

(** Headings registered at tops 0, 500 and 1000. *)
Definition headings_intro_setup_usage : list ContentHeading :=
  [ {| id := "intro"; top := 0; level := 2 |};
    {| id := "setup"; top := 500; level := 2 |};
    {| id := "usage"; top := 1000; level := 3 |} ].

(** A level-1 page title above a level-2 section further down. *)
Definition headings_title_intro : list ContentHeading :=
  [ {| id := "title"; top := 0; level := 1 |};
    {| id := "intro"; top := 500; level := 2 |} ].

(** ** The heading tag *)

(** The [Tag] that [headingNode.transform] returns, from the transformed
    attributes and children of the node and the node's own [level]
    attribute:
    [new Tag('Heading', { ...attributes, id, level }, children)] with
    [id = generateID(children, attributes)]. *)
Definition headingNode_transform (attributes : gmap string value)
    (children : list Node) (level' : value) : Node :=
  let id' := generateID children attributes in
  Tag "Heading" (<["level" := level']> (<["id" := VStr id']> attributes)) children.

(** What one node adds to [sections] before its children are visited. *)
Definition own_heading (node : Node) : list MarkdocHeading :=
  match node with
  | Tag name attributes (Scalar (VStr title) :: _) =>
      if String.eqb name "Heading" then [heading_of attributes title] else []
  | _ => []
  end.

(** ** Fenced code *)

(** [String.prototype.trim] on Latin-1 code units: the whitespace it strips
    is the class [\s]. *)
Fixpoint trimStart (s : string) : string :=
  match s with
  | EmptyString => EmptyString
  | String c s' => if is_whitespace c then trimStart s' else s
  end.

Fixpoint trimEnd (s : string) : string :=
  match s with
  | EmptyString => EmptyString
  | String c s' =>
      match trimEnd s' with
      | EmptyString => if is_whitespace c then EmptyString else String c EmptyString
      | rest => String c rest
      end
  end.

Definition trim (s : string) : string := trimEnd (trimStart s).

(** The [children] prop of [Fence], as far as the component tells the cases
    apart: a scalar, an array (of strings, the text pieces of a fence), or
    anything else (a React element). *)
Inductive FenceChildren : Type :=
  | FScalar (v : value)
  | FArray (items : list string)
  | FElement.

(** The [code] that [Fence] hands to [CodePanel].  The separator of the
    [join] is the two characters backslash and n, as the source has it. *)
Definition Fence_code (children : FenceChildren) : string :=
  match children with
  | FScalar v =>
      if negb (truthy v) then ""
      else match v with
           | VStr s => trim s
           | _ => ""
           end
  | FArray items => trim (String.concat "\n" items)
  | FElement => ""
  end.

(** ** The rendered table of contents *)

(** [isActive] of [TableOfContents].  An entry always has a [children]
    array, so [!section.children] is false;
    [section.children.findIndex(isActive) > -1] says that some child is
    active. *)
Fixpoint isActive (currentSection : value) (section : TOCEntry) : bool :=
  match section with
  | mkTOCEntry _ slug' children' =>
      if decide (slug' = currentSection) then true
      else existsb (isActive currentSection) children'
  end.

(** One [<li>] of the list: the anchor target and text, whether it is an
    indented subsection item, and whether it is highlighted. *)
Record TOCRow : Type := mkTOCRow {
  row_slug : value;
  row_title : value;
  row_nested : bool;
  row_active : bool;
}.

Definition toc_row (currentSection : value) (nested : bool) (section : TOCEntry)
  : TOCRow :=
  {| row_slug := slug section; row_title := title section;
     row_nested := nested; row_active := isActive currentSection section |}.

(** The items that [TableOfContents] renders, in order: for every section
    its own item, then one item for each of its children. *)
Definition TableOfContents (toc : TOC) (currentSection : value) : list TOCRow :=
  flat_map
    (fun section =>
       toc_row currentSection false section
         :: map (toc_row currentSection true) (children section))
    toc.

(** What an item shows of a heading: title, anchor and indentation. *)
Definition heading_item (h : MarkdocHeading) : value * value * bool :=
  (VStr (h_title h), h_id h, bool_decide (h_level h = VNum 3)).

Definition row_item (r : TOCRow) : value * value * bool :=
  (row_title r, row_slug r, row_nested r).

(** ** Commits *)

(** A call of [registerHeading] or of [unregisterHeading]: each queues an
    updater function for [headings]. *)
Inductive Update : Type :=
  | URegister (id' : string) (top' level' : Z)
  | UUnregister (id' : string).

Definition apply_update (headings : list ContentHeading) (u : Update)
  : list ContentHeading :=
  match u with
  | URegister id' top' level' => registerHeading id' top' level' headings
  | UUnregister id' => unregisterHeading id' headings
  end.

(** One commit: React applies the updaters that were queued in one tick (at
    least one) to [headings], in the order of the calls, and then runs the
    effect once, on the resulting array. *)
Definition commit (toc : TOC) (vp : Viewport) (updates : list Update)
    (st : Tracker) : option Tracker :=
  recompute toc vp
    {| currentSection := currentSection st;
       headings := fold_left apply_update updates (headings st) |}.

(** The reading of the specification by which [generateID] never returns an
    id attribute that it ignores. *)
Definition returns_another_id (children : list Node)
    (attributes : gmap string value) : Prop :=
  VStr (generateID children attributes) <> prop attributes "id".

(** * Properties *)

(** ** [createTOC] *)

Section CreateTOC.

Implicit Types (h : MarkdocHeading) (hs : list MarkdocHeading)
  (e : TOCEntry) (toc : TOC).

Lemma createTOC_loop_cons h hs st :
  createTOC_loop (h :: hs) st = createTOC_loop hs (createTOC_step st h).
Proof. reflexivity. Qed.

Lemma array_set_last toc e e' :
  array_set (toc ++ [e]) (length toc) e' = toc ++ [e'].
Proof.
  unfold array_set. rewrite length_app. simpl.
  destruct (decide _) as [_|Hn]; [|lia].
  rewrite insert_app_r_alt by lia. by rewrite Nat.sub_diag.
Qed.

Lemma createTOC_step_h2 toc i h :
  h_level h = VNum 2 ->
  createTOC_step (toc, i) h = (toc ++ [entry_of h], length toc).
Proof.
  intros H2. unfold createTOC_step. rewrite decide_True by done.
  cbn zeta. f_equal. rewrite length_app. simpl. lia.
Qed.

Lemma createTOC_step_h3 toc e h :
  h_level h = VNum 3 ->
  createTOC_step (toc ++ [e], length toc) h
  = (toc ++ [with_children e [entry_of h]], length toc).
Proof.
  intros H3. unfold createTOC_step.
  rewrite decide_False by (rewrite H3; discriminate).
  rewrite decide_True by done. cbn zeta.
  rewrite lookup_app_r by lia. rewrite Nat.sub_diag. simpl.
  by rewrite array_set_last.
Qed.

Lemma createTOC_step_h3_orphan h :
  h_level h = VNum 3 ->
  createTOC_step ([], 0%nat) h = ([orphan_entry [h]], 0%nat).
Proof.
  intros H3. unfold createTOC_step.
  rewrite decide_False by (rewrite H3; discriminate).
  by rewrite decide_True by done.
Qed.

Lemma createTOC_step_other st h :
  h_level h <> VNum 2 -> h_level h <> VNum 3 -> createTOC_step st h = st.
Proof.
  intros H2 H3. destruct st as [toc i]. unfold createTOC_step.
  by rewrite !decide_False by done.
Qed.

Lemma with_children_nil e : with_children e [] = e.
Proof. destruct e. unfold with_children. simpl. by rewrite app_nil_r. Qed.

Lemma with_children_app e cs cs' :
  with_children (with_children e cs) cs' = with_children e (cs ++ cs').
Proof. unfold with_children. simpl. by rewrite app_assoc. Qed.

(** With the cursor on the last entry, the loop extends that entry by the
    subsections at the front and then lays out the remaining sections; the
    cursor ends on the last entry again. *)
Lemma createTOC_loop_open hs : forall toc e,
  createTOC_loop hs (toc ++ [e], length toc)
  = (toc ++ with_children e (map entry_of (subsections hs)) :: toc_spec hs,
     length (toc ++ toc_spec hs)).
Proof.
  induction hs as [|h hs IH]; intros toc e.
  - simpl. by rewrite with_children_nil, app_nil_r.
  - rewrite createTOC_loop_cons. cbn [subsections toc_spec].
    destruct (decide (h_level h = VNum 2)) as [H2|H2].
    + rewrite createTOC_step_h2 by done.
      rewrite IH. rewrite with_children_nil.
      rewrite <- !app_assoc. simpl. f_equal.
      rewrite !length_app. simpl. lia.
    + destruct (decide (h_level h = VNum 3)) as [H3|H3].
      * rewrite createTOC_step_h3 by done. rewrite IH.
        by rewrite with_children_app.
      * rewrite createTOC_step_other by done. apply IH.
Qed.

Lemma createTOC_loop_single hs e :
  createTOC_loop hs ([e], 0%nat)
  = (with_children e (map entry_of (subsections hs)) :: toc_spec hs,
     length (toc_spec hs)).
Proof. exact (createTOC_loop_open hs [] e). Qed.

(** The cursor never leaves the array: after any number of iterations from
    the initial state it is the last index, or 0 while the array is empty. *)
Lemma createTOC_loop_index hs :
  snd (createTOC_loop hs ([], 0%nat))
  = (length (fst (createTOC_loop hs ([], 0%nat))) - 1)%nat.
Proof.
  induction hs as [|h hs IH]; [reflexivity|].
  rewrite createTOC_loop_cons.
  destruct (decide (h_level h = VNum 2)) as [H2|H2].
  - rewrite createTOC_step_h2 by done. cbn [app length].
    rewrite createTOC_loop_single. simpl. lia.
  - destruct (decide (h_level h = VNum 3)) as [H3|H3].
    + rewrite createTOC_step_h3_orphan by done.
      rewrite createTOC_loop_single. simpl. lia.
    + by rewrite createTOC_step_other by done.
Qed.

(** What the loop returns from its initial state, for every heading
    sequence. *)
Lemma createTOC_loop_init hs :
  fst (createTOC_loop hs ([], 0%nat))
  = match subsections hs with
    | [] => toc_spec hs
    | lead => orphan_entry lead :: toc_spec hs
    end.
Proof.
  induction hs as [|h hs IH]; [reflexivity|].
  rewrite createTOC_loop_cons. cbn [subsections toc_spec].
  destruct (decide (h_level h = VNum 2)) as [H2|H2].
  - rewrite createTOC_step_h2 by done. cbn [app length].
    rewrite createTOC_loop_single. reflexivity.
  - destruct (decide (h_level h = VNum 3)) as [H3|H3].
    + rewrite createTOC_step_h3_orphan by done.
      rewrite createTOC_loop_single. reflexivity.
    + rewrite createTOC_step_other by done. apply IH.
Qed.


(** *** The specification's table of contents, read off the heading list *)

Lemma h2_precedes_h3_tail h hs :
  h_level h <> VNum 2 -> h2_precedes_h3 (h :: hs) -> h2_precedes_h3 hs.
Proof.
  intros Hh Hwf pre x post -> Hx.
  destruct (Hwf (h :: pre) x post eq_refl Hx) as (h2 & Hin & H2).
  apply elem_of_cons in Hin as [->|Hin]; [done|]. eauto.
Qed.

Lemma subsections_well_formed hs : h2_precedes_h3 hs -> subsections hs = [].
Proof.
  induction hs as [|h hs IH]; intros Hwf; [done|]. simpl.
  destruct (decide (h_level h = VNum 2)) as [H2|H2]; [done|].
  destruct (decide (h_level h = VNum 3)) as [H3|H3].
  - destruct (Hwf [] h hs eq_refl H3) as (h2 & Hin & _).
    by apply elem_of_nil in Hin.
  - apply IH. by eapply h2_precedes_h3_tail.
Qed.

(** Up to the first level-2 heading, the subsections are the level-3
    headings. *)
Lemma subsections_app pre hs :
  (forall h2, h2 ∈ pre -> h_level h2 <> VNum 2) ->
  subsections (pre ++ hs)
  = filter (fun x => h_level x = VNum 3) pre ++ subsections hs.
Proof.
  induction pre as [|x pre IH]; intros Hpre; [done|]. simpl.
  rewrite decide_False by (apply Hpre; left).
  assert (Hpre' : forall h2, h2 ∈ pre -> h_level h2 <> VNum 2)
    by (intros h2 Hin; apply Hpre; by right).
  rewrite filter_cons.
  destruct (decide (h_level x = VNum 3)); simpl; by rewrite IH.
Qed.

Lemma subsections_starts_section hs : starts_section hs -> subsections hs = [].
Proof. destruct hs as [|h hs]; simpl; [done|]. intros H2. by rewrite decide_True. Qed.

Lemma toc_spec_no_h2 pre hs :
  (forall h2, h2 ∈ pre -> h_level h2 <> VNum 2) ->
  toc_spec (pre ++ hs) = toc_spec hs.
Proof.
  induction pre as [|x pre IH]; intros Hpre; [done|]. simpl.
  rewrite decide_False by (apply Hpre; left).
  apply IH. intros h2 Hin. apply Hpre. by right.
Qed.

Lemma subsections_app_section pre hs :
  starts_section hs -> subsections (pre ++ hs) = subsections pre.
Proof.
  intros Hs. induction pre as [|x pre IH]; simpl.
  - by apply subsections_starts_section.
  - by rewrite IH.
Qed.

(** A heading list splits into independent parts in front of every level-2
    heading. *)
Lemma toc_spec_app pre hs :
  starts_section hs -> toc_spec (pre ++ hs) = toc_spec pre ++ toc_spec hs.
Proof.
  intros Hs. induction pre as [|x pre IH]; simpl; [done|].
  rewrite IH, subsections_app_section by done.
  by destruct (decide (h_level x = VNum 2)).
Qed.

Lemma toc_spec_length hs :
  length (toc_spec hs) = length (filter (fun x => h_level x = VNum 2) hs).
Proof.
  induction hs as [|x hs IH]; [done|]. simpl. rewrite filter_cons.
  destruct (decide (h_level x = VNum 2)); simpl; by rewrite IH.
Qed.

(** The top-level entries are the level-2 headings, in document order. *)
Lemma toc_spec_top_level hs :
  map (fun e => (title e, slug e)) (toc_spec hs)
  = map (fun x => (VStr (h_title x), h_id x))
        (filter (fun x => h_level x = VNum 2) hs).
Proof.
  induction hs as [|x hs IH]; [done|]. simpl. rewrite filter_cons.
  destruct (decide (h_level x = VNum 2)); simpl; by rewrite IH.
Qed.

(** The entry of a level-2 heading holds the level-3 headings of its own
    section, in document order. *)
Lemma toc_spec_section pre h2 mid post :
  h_level h2 = VNum 2 ->
  (forall x, x ∈ mid -> h_level x <> VNum 2) ->
  starts_section post ->
  toc_spec (pre ++ h2 :: mid ++ post)
    !! length (filter (fun x => h_level x = VNum 2) pre)
  = Some {| title := VStr (h_title h2); slug := h_id h2;
            children := map entry_of (filter (fun x => h_level x = VNum 3) mid) |}.
Proof.
  intros H2 Hmid Hpost.
  rewrite toc_spec_app by done.
  rewrite lookup_app_r by (rewrite toc_spec_length; lia).
  rewrite toc_spec_length, Nat.sub_diag. simpl.
  rewrite decide_True by done. simpl.
  rewrite subsections_app by done.
  rewrite subsections_starts_section by done. by rewrite app_nil_r.
Qed.

(** Headings of other levels than 2 and 3 do not show in the loop. *)
Lemma createTOC_loop_filter hs : forall st,
  createTOC_loop (filter (fun x => h_level x = VNum 2 \/ h_level x = VNum 3) hs) st
  = createTOC_loop hs st.
Proof.
  induction hs as [|x hs IH]; intros st; [done|].
  rewrite filter_cons. destruct (decide _) as [Hx|Hx].
  - rewrite !createTOC_loop_cons. apply IH.
  - rewrite createTOC_loop_cons, createTOC_step_other by tauto. apply IH.
Qed.

(** *** Claims about [createTOC] *)

(** C1, as amended.  A level-3 heading that comes before any level-2 heading
    is kept: the table of contents then starts with an entry whose title and
    slug are undefined and whose children are the level-3 headings in front
    of the first level-2 heading, in document order; the entries of the
    level-2 headings follow. *)
Theorem createTOC_leading_h3 node pre h post :
  collectMarkdocHeadings node [] = pre ++ h :: post ->
  h_level h = VNum 3 ->
  (forall h2, h2 ∈ pre -> h_level h2 <> VNum 2) ->
  createTOC node
  = orphan_entry (filter (fun x => h_level x = VNum 3) pre ++ h :: subsections post)
      :: toc_spec post
  /\ appears (entry_of h) (createTOC node).
Proof.
  intros Hhs H3 Hpre.
  assert (Htoc : createTOC node
    = orphan_entry (filter (fun x => h_level x = VNum 3) pre ++ h :: subsections post)
        :: toc_spec post).
  { unfold createTOC. rewrite Hhs, createTOC_loop_init.
    rewrite subsections_app, toc_spec_no_h2 by done. simpl.
    destruct (decide (h_level h = VNum 2)) as [H2|_]; [congruence|].
    destruct (decide (h_level h = VNum 3)) as [_|]; [|done].
    by destruct (filter _ pre). }
  split; [done|]. right. rewrite Htoc. eexists. split; [left|].
  simpl. apply list_elem_of_fmap. exists h. split; [done|].
  apply elem_of_app. right. left.
Qed.

Lemma createTOC_leading_h3_witness :
  createTOC doc_leading_h3
  = orphan_entry
      (filter (fun x => h_level x = VNum 3) []
         ++ heading_of (heading_attrs "install" 3) "Install" :: subsections [])
      :: toc_spec []
  /\ appears (entry_of (heading_of (heading_attrs "install" 3) "Install"))
       (createTOC doc_leading_h3).
Proof.
  apply (createTOC_leading_h3 doc_leading_h3 []
           (heading_of (heading_attrs "install" 3) "Install") []).
  - reflexivity.
  - reflexivity.
  - intros h2 Hin. inversion Hin.
Defined.

(** C1, as the specification words it, fails: the level-3 heading of a
    document that opens with it is found among the children of the first
    entry of the result. *)
Lemma createTOC_does_not_drop_leading_h3 : ~ drops_leading_h3 doc_leading_h3.
Proof.
  intros Hdrop.
  apply (Hdrop [] (heading_of (heading_attrs "install" 3) "Install") []).
  - reflexivity.
  - reflexivity.
  - intros h2 Hin. inversion Hin.
  - right. eexists. split; [left|]. left.
Qed.

(** C4.  When a level-2 heading precedes every level-3 heading, the result
    is the table of contents of the specification: its top-level entries are
    the level-2 headings in document order, the entry of a level-2 heading
    has as children the level-3 headings between it and the next level-2
    heading, in document order, and headings of other levels leave no
    entry. *)
Theorem createTOC_well_formed node :
  let hs := collectMarkdocHeadings node [] in
  h2_precedes_h3 hs ->
  createTOC node = toc_spec hs
  /\ map (fun e => (title e, slug e)) (createTOC node)
     = map (fun x => (VStr (h_title x), h_id x))
           (filter (fun x => h_level x = VNum 2) hs)
  /\ (forall pre h2 mid post,
        hs = pre ++ h2 :: mid ++ post ->
        h_level h2 = VNum 2 ->
        (forall x, x ∈ mid -> h_level x <> VNum 2) ->
        starts_section post ->
        createTOC node !! length (filter (fun x => h_level x = VNum 2) pre)
        = Some {| title := VStr (h_title h2); slug := h_id h2;
                  children :=
                    map entry_of (filter (fun x => h_level x = VNum 3) mid) |})
  /\ createTOC node
     = fst (createTOC_loop
              (filter (fun x => h_level x = VNum 2 \/ h_level x = VNum 3) hs)
              ([], 0%nat)).
Proof.
  intros hs Hwf.
  assert (Htoc : createTOC node = toc_spec hs).
  { unfold createTOC. fold hs. rewrite createTOC_loop_init.
    by rewrite subsections_well_formed. }
  repeat split.
  - done.
  - rewrite Htoc. apply toc_spec_top_level.
  - intros pre h2 mid post Hhs H2 Hmid Hpost.
    rewrite Htoc, Hhs. by apply toc_spec_section.
  - rewrite createTOC_loop_filter. reflexivity.
Qed.

Lemma h2_precedes_h3_iff hs : h2_precedes_h3 hs <-> subsections hs = [].
Proof.
  split; [apply subsections_well_formed|].
  induction hs as [|x hs IH]; intros Hsub pre h post Hhs H3.
  - by destruct pre.
  - simpl in Hsub. destruct (decide (h_level x = VNum 2)) as [H2|H2].
    + destruct pre as [|y pre]; simplify_eq/=; [congruence|].
      exists y. split; [left|done].
    + destruct (decide (h_level x = VNum 3)) as [|Hx3]; [done|].
      destruct pre as [|y pre]; simplify_eq/=.
      destruct (IH Hsub pre h post eq_refl H3) as (h2 & Hin & Hh2).
      exists h2. split; [by right|done].
Qed.

Lemma createTOC_well_formed_witness :
  h2_precedes_h3 (collectMarkdocHeadings doc_intro_install_usage [])
  /\ createTOC doc_intro_install_usage
     = [ {| title := VStr "Intro"; slug := VStr "intro";
            children := [ {| title := VStr "Install"; slug := VStr "install";
                             children := [] |} ] |};
         {| title := VStr "Usage"; slug := VStr "usage"; children := [] |} ].
Proof.
  assert (Hwf : h2_precedes_h3 (collectMarkdocHeadings doc_intro_install_usage []))
    by (apply h2_precedes_h3_iff; reflexivity).
  split; [exact Hwf|].
  rewrite (proj1 (createTOC_well_formed doc_intro_install_usage Hwf)).
  reflexivity.
Defined.

End CreateTOC.

(** ** The active-section tracker *)

Section Tracker.

Implicit Types (h : ContentHeading) (hs : list ContentHeading) (vp : Viewport).

(** *** Sorting *)

Lemma insert_by_top_perm h hs : insert_by_top h hs ≡ₚ h :: hs.
Proof.
  induction hs as [|x hs IH]; simpl; [done|].
  destruct (top h <=? top x); [done|].
  rewrite IH. apply Permutation_swap.
Qed.

Lemma sort_by_top_perm hs : sort_by_top hs ≡ₚ hs.
Proof.
  induction hs as [|x hs IH]; simpl; [done|].
  by rewrite insert_by_top_perm, IH.
Qed.

Lemma insert_by_top_hdrel a h hs :
  by_top a h -> HdRel by_top a hs -> HdRel by_top a (insert_by_top h hs).
Proof.
  intros Hah Hhd. destruct hs as [|x hs]; simpl.
  - by constructor.
  - destruct (top h <=? top x); constructor; [done|].
    by inversion Hhd.
Qed.

Lemma insert_by_top_sorted h hs :
  Sorted by_top hs -> Sorted by_top (insert_by_top h hs).
Proof.
  induction 1 as [|x hs Hs IH Hhd]; simpl.
  - repeat constructor.
  - destruct (Z.leb_spec (top h) (top x)) as [Hle|Hgt].
    + repeat constructor; done.
    + constructor; [done|].
      apply insert_by_top_hdrel; [|done]. unfold by_top. lia.
Qed.

Lemma sort_by_top_sorted hs : Sorted by_top (sort_by_top hs).
Proof.
  induction hs as [|x hs IH]; simpl; [constructor|].
  by apply insert_by_top_sorted.
Qed.

Lemma sort_by_top_nil hs : sort_by_top hs = [] -> hs = [].
Proof.
  intros Hs. apply Permutation_nil. by rewrite <- Hs, sort_by_top_perm.
Qed.

(** *** The scan *)

Lemma qualifies_Qualifies t h : qualifies t h = true <-> Qualifies t h.
Proof. unfold qualifies, Qualifies. lia. Qed.

Lemma scan_snoc t hs h current :
  scan t (hs ++ [h]) current
  = if qualifies t h then id h else scan t hs current.
Proof. unfold scan. by rewrite fold_left_app. Qed.

(** The loop leaves in [current] the id of the last heading that passed the
    test, or the initial value when none did. *)
Lemma scan_last t hs current :
  scan t hs current = from_option id current (last (filter (Qualifies t) hs)).
Proof.
  induction hs as [|h hs IH] using rev_ind; [done|].
  rewrite scan_snoc, filter_app, filter_cons, filter_nil.
  destruct (qualifies t h) eqn:Hq.
  - apply qualifies_Qualifies in Hq. rewrite decide_True by done.
    by rewrite last_snoc.
  - rewrite decide_False by (rewrite <- qualifies_Qualifies; congruence).
    by rewrite app_nil_r.
Qed.

(** [onScroll] in one equation. *)
Lemma onScroll_eq hs vp :
  onScroll hs vp
  = first ← head (sort_by_top hs);
    Some (from_option id (id first) (last_qualifying vp hs)).
Proof.
  unfold onScroll, last_qualifying, thresholdY.
  destruct (sort_by_top hs) as [|first rest] eqn:Hs; [done|].
  by rewrite scan_last.
Qed.

Lemma onScroll_is_Some hs vp : hs <> [] -> is_Some (onScroll hs vp).
Proof.
  intros Hne. unfold onScroll.
  destruct (sort_by_top hs) eqn:Hs; [|eauto].
  by apply sort_by_top_nil in Hs.
Qed.

Lemma last_qualifying_elem vp hs h :
  last_qualifying vp hs = Some h -> h ∈ hs /\ Qualifies (thresholdY vp) h.
Proof.
  unfold last_qualifying. intros Hl.
  assert (Hin : h ∈ filter (Qualifies (thresholdY vp)) (sort_by_top hs)).
  { apply last_Some in Hl as [l' ->]. apply elem_of_app. right. left. }
  apply list_elem_of_filter in Hin as [Hq Hin].
  split; [|done]. by rewrite <- (sort_by_top_perm hs).
Qed.

(** The value that [onScroll] hands to [setCurrentSection] is the id of a
    registered heading. *)
Lemma onScroll_elem hs vp s :
  onScroll hs vp = Some s -> exists h, h ∈ hs /\ id h = s.
Proof.
  rewrite onScroll_eq. intros Hs.
  destruct (head (sort_by_top hs)) as [first|] eqn:Hhd; [|done].
  simpl in Hs. injection Hs as <-.
  destruct (last_qualifying vp hs) as [h|] eqn:Hl; simpl.
  - exists h. split; [|done]. by eapply last_qualifying_elem.
  - exists first. split; [|done].
    rewrite <- (sort_by_top_perm hs). by eapply head_Some_elem_of.
Qed.

(** *** Sorting and filtering commute *)

Lemma insert_by_top_front h hs :
  (forall y, y ∈ hs -> top h <= top y) -> insert_by_top h hs = h :: hs.
Proof.
  destruct hs as [|x hs]; simpl; [done|]. intros Hall.
  destruct (Z.leb_spec (top h) (top x)) as [_|Hgt]; [done|].
  specialize (Hall x (list_elem_of_here _ _)). lia.
Qed.

Lemma by_top_transitive : Transitive by_top.
Proof. unfold by_top. intros a b c. lia. Qed.

Lemma insert_by_top_filter (P : ContentHeading -> Prop)
    `{!forall h, Decision (P h)} h hs :
  StronglySorted by_top hs ->
  filter P (insert_by_top h hs)
  = if decide (P h) then insert_by_top h (filter P hs) else filter P hs.
Proof.
  induction 1 as [|x hs Hs IH Hall]; simpl.
  - rewrite filter_cons, filter_nil. by destruct (decide (P h)).
  - destruct (Z.leb_spec (top h) (top x)) as [Hle|Hgt].
    + rewrite (filter_cons P h). destruct (decide (P h)) as [Hp|Hp]; [|done].
      rewrite insert_by_top_front; [done|].
      intros y Hy. apply list_elem_of_filter in Hy as [_ Hy].
      apply elem_of_cons in Hy as [->|Hy]; [done|].
      rewrite Forall_forall in Hall. specialize (Hall y Hy).
      unfold by_top in Hall. lia.
    + rewrite !(filter_cons P x), IH.
      destruct (decide (P h)), (decide (P x)); simpl; try done.
      destruct (Z.leb_spec (top h) (top x)); [lia|done].
Qed.

Lemma sort_by_top_filter (P : ContentHeading -> Prop)
    `{!forall h, Decision (P h)} hs :
  sort_by_top (filter P hs) = filter P (sort_by_top hs).
Proof.
  pose proof by_top_transitive.
  induction hs as [|x hs IH]; [done|]. simpl.
  rewrite insert_by_top_filter
    by (apply Sorted_StronglySorted; [done|apply sort_by_top_sorted]).
  rewrite filter_cons. destruct (decide (P x)); simpl; by rewrite IH.
Qed.

Lemma sort_by_top_same_top t hs :
  Forall (fun h => top h = t) hs -> sort_by_top hs = hs.
Proof.
  induction 1 as [|x hs Hx Hall IH]; [done|]. simpl. rewrite IH.
  apply insert_by_top_front. intros y Hy.
  rewrite Forall_forall in Hall. rewrite (Hall y Hy). lia.
Qed.

(** The sort is stable: headings with the same top keep the order in which
    they were registered. *)
Lemma sort_by_top_stable t hs :
  filter (fun h => top h = t) (sort_by_top hs) = filter (fun h => top h = t) hs.
Proof.
  rewrite <- sort_by_top_filter. apply (sort_by_top_same_top t).
  apply Forall_forall. intros h Hh.
  by apply list_elem_of_filter in Hh as [Hh _].
Qed.

(** Dropping headings that cannot pass the test changes neither the last
    heading that passes, nor, when there is one, the active section. *)
Lemma last_qualifying_filter (P : ContentHeading -> Prop)
    `{!forall h, Decision (P h)} hs vp :
  (forall h, Qualifies (thresholdY vp) h -> P h) ->
  last_qualifying vp (filter P hs) = last_qualifying vp hs.
Proof.
  intros HP. unfold last_qualifying.
  rewrite sort_by_top_filter, list_filter_filter. f_equal.
  apply list_filter_iff. intros h. split; [tauto|]. intros Hq. split; [done|].
  by apply HP.
Qed.

(** *** Registered ids are distinct *)

Lemma NoDup_id_inj hs a b :
  NoDup (map id hs) -> a ∈ hs -> b ∈ hs -> id a = id b -> a = b.
Proof.
  induction hs as [|x hs IH]; intros Hnd Ha Hb Hid.
  - by apply elem_of_nil in Ha.
  - apply NoDup_cons in Hnd as [Hx Hnd].
    apply elem_of_cons in Ha as [->|Ha]; apply elem_of_cons in Hb as [->|Hb].
    + done.
    + exfalso. apply Hx. rewrite Hid. by apply (list_elem_of_fmap_2 id).
    + exfalso. apply Hx. rewrite <- Hid. by apply (list_elem_of_fmap_2 id).
    + by apply IH.
Qed.

Lemma unregisterHeading_ids i hs h : h ∈ unregisterHeading i hs -> id h <> i.
Proof.
  unfold unregisterHeading. intros Hin.
  apply list_elem_of_filter in Hin as [Hne _]. congruence.
Qed.

Lemma unregisterHeading_NoDup i hs :
  NoDup (map id hs) -> NoDup (map id (unregisterHeading i hs)).
Proof.
  unfold unregisterHeading. induction hs as [|x hs IH]; [done|].
  simpl. intros Hnd. apply NoDup_cons in Hnd as [Hx Hnd].
  rewrite filter_cons. destruct (decide (i <> id x)); [|by apply IH].
  simpl. apply NoDup_cons. split; [|by apply IH].
  intros Hin. apply Hx. apply list_elem_of_fmap in Hin as (y & Hy & Hin).
  apply list_elem_of_filter in Hin as [_ Hin]. rewrite Hy.
  by apply (list_elem_of_fmap_2 id).
Qed.

(** Every list of registered headings that the hook can hold has distinct
    ids: it starts empty and changes by the two operations only. *)
Lemma registerHeading_NoDup i t l hs :
  NoDup (map id hs) -> NoDup (map id (registerHeading i t l hs)).
Proof.
  intros Hnd. unfold registerHeading. rewrite map_app. simpl.
  apply NoDup_app. split; [by apply unregisterHeading_NoDup|]. split.
  - intros s Hin Hs. apply list_elem_of_singleton in Hs as ->.
    apply list_elem_of_fmap in Hin as (y & Hy & Hin).
    by apply (unregisterHeading_ids _ _ _ Hin).
  - apply NoDup_singleton.
Qed.

(** *** Claims about the tracker *)

(** The fallback: when no heading passes the test, the active section is the
    id of the first heading in sorted order, whatever its level. *)
Lemma onScroll_fallback hs vp :
  last_qualifying vp hs = None ->
  onScroll hs vp = id <$> head (sort_by_top hs).
Proof.
  intros Hl. rewrite onScroll_eq, Hl.
  by destruct (head (sort_by_top hs)).
Qed.

(** C2, as the specification words it, fails: with a level-1 title at the
    top of the page and the first section still below the threshold, the
    active section is the id of the title. *)
Lemma onScroll_selects_h1 :
  ~ never_selects_h1 headings_title_intro {| pageYOffset := 0; scrollMt := 0 |}.
Proof.
  intros Hnever.
  apply (Hnever {| id := "title"; top := 0; level := 1 |}).
  - left.
  - reflexivity.
  - reflexivity.
Qed.

(** C2, as amended.  With distinct registered ids, the active section is the
    id of a level-1 heading exactly when no heading of level 2 or 3 has its
    top at or above the threshold line and the level-1 heading is the first
    one in sorted order, that is, through the fallback only; and whenever
    some heading of level 2 or 3 does qualify, removing the level-1 headings
    leaves the active section as it is. *)
Theorem onScroll_level1 hs vp h :
  NoDup (map id hs) -> h ∈ hs -> level h = 1 ->
  (onScroll hs vp = Some (id h)
   <-> last_qualifying vp hs = None /\ head (sort_by_top hs) = Some h)
  /\ (last_qualifying vp hs <> None ->
      onScroll (filter (fun x => level x <> 1) hs) vp = onScroll hs vp).
Proof.
  intros Hnd Hin H1. split; [split|].
  - rewrite onScroll_eq. intros Hs.
    destruct (head (sort_by_top hs)) as [first|] eqn:Hhd; [|done].
    simpl in Hs. injection Hs as Hs.
    destruct (last_qualifying vp hs) as [q|] eqn:Hl; simpl in Hs.
    + apply last_qualifying_elem in Hl as [Hq [_ Hlevel]].
      assert (q = h) as -> by by eapply NoDup_id_inj.
      lia.
    + split; [done|]. f_equal. eapply NoDup_id_inj; [done| |done|done].
      rewrite <- (sort_by_top_perm hs). by eapply head_Some_elem_of.
  - intros [Hl Hhd]. by rewrite onScroll_fallback, Hhd.
  - intros Hl. rewrite !onScroll_eq.
    rewrite last_qualifying_filter by (intros x [_ Hx]; lia).
    destruct (last_qualifying vp hs) as [q|] eqn:Hq; [|done]. simpl.
    assert (Hq' : q ∈ filter (fun x => level x <> 1) hs).
    { apply last_qualifying_elem in Hq as [Hq [_ Hlevel]].
      apply list_elem_of_filter. split; [lia|done]. }
    rewrite <- (sort_by_top_perm (filter _ hs)) in Hq'.
    rewrite <- (sort_by_top_perm hs) in Hin.
    destruct (sort_by_top (filter _ hs)); [by apply elem_of_nil in Hq'|].
    destruct (sort_by_top hs); [by apply elem_of_nil in Hin|]. done.
Qed.

Lemma onScroll_level1_witness :
  (onScroll headings_title_intro {| pageYOffset := 0; scrollMt := 0 |}
     = Some (id {| id := "title"; top := 0; level := 1 |})
   <-> last_qualifying {| pageYOffset := 0; scrollMt := 0 |} headings_title_intro
       = None
       /\ head (sort_by_top headings_title_intro)
          = Some {| id := "title"; top := 0; level := 1 |})
  /\ (last_qualifying {| pageYOffset := 0; scrollMt := 0 |} headings_title_intro
        <> None ->
      onScroll (filter (fun x => level x <> 1) headings_title_intro)
               {| pageYOffset := 0; scrollMt := 0 |}
      = onScroll headings_title_intro {| pageYOffset := 0; scrollMt := 0 |}).
Proof.
  apply (onScroll_level1 headings_title_intro
           {| pageYOffset := 0; scrollMt := 0 |}
           {| id := "title"; top := 0; level := 1 |}).
  - vm_compute. repeat constructor; intros Hin; inversion Hin; subst;
      try discriminate; match goal with H : _ ∈ [] |- _ => inversion H end.
  - left.
  - reflexivity.
Defined.

(** Past its guard, the effect stores what [onScroll] returns. *)
Lemma recompute_onScroll toc vp current hs s :
  toc <> [] -> onScroll hs vp = Some s ->
  recompute toc vp {| currentSection := current; headings := hs |}
  = Some {| currentSection := VStr s; headings := hs |}.
Proof.
  intros Htoc Hs. unfold recompute. simpl.
  rewrite decide_False.
  - by rewrite Hs.
  - intros [Hz|Hz]; apply length_zero_iff_nil in Hz; [done|].
    rewrite Hz in Hs. discriminate.
Qed.

(** C3.  For a non-empty list of registered headings the recomputation
    sorts them by ascending top and sets the active section to the id of the
    last heading of level 2 or 3 whose top is at most
    [thresholdY = pageYOffset + scrollMt + 1]: [onScroll] computes that id
    and the effect, for a non-empty table of contents, stores it in
    [currentSection] and leaves the registered headings as they are; for the
    three headings "intro", "setup" and "usage" at tops 0, 500 and 1000 and
    a threshold of 600 the active section becomes "setup". *)
Theorem onScroll_last_qualifying hs vp :
  hs <> [] ->
  Sorted by_top (sort_by_top hs)
  /\ sort_by_top hs ≡ₚ hs
  /\ is_Some (onScroll hs vp)
  /\ (forall h,
        last (filter (Qualifies (pageYOffset vp + scrollMt vp + 1)) (sort_by_top hs))
          = Some h ->
        onScroll hs vp = Some (id h))
  /\ (forall vp', thresholdY vp' = 600 ->
        onScroll headings_intro_setup_usage vp' = Some "setup")
  /\ (forall toc current h,
        toc <> [] ->
        last (filter (Qualifies (pageYOffset vp + scrollMt vp + 1)) (sort_by_top hs))
          = Some h ->
        recompute toc vp {| currentSection := current; headings := hs |}
        = Some {| currentSection := VStr (id h); headings := hs |})
  /\ (forall toc current vp',
        toc <> [] -> thresholdY vp' = 600 ->
        recompute toc vp'
          {| currentSection := current; headings := headings_intro_setup_usage |}
        = Some {| currentSection := VStr "setup";
                  headings := headings_intro_setup_usage |}).
Proof.
  intros Hne.
  assert (Hlast : forall h,
    last (filter (Qualifies (pageYOffset vp + scrollMt vp + 1)) (sort_by_top hs))
      = Some h ->
    onScroll hs vp = Some (id h)).
  { intros h Hl. rewrite onScroll_eq. unfold last_qualifying, thresholdY.
    rewrite Hl. destruct (head (sort_by_top hs)) eqn:Hhd; [done|].
    apply head_None in Hhd. by apply sort_by_top_nil in Hhd. }
  assert (Hex : forall vp', thresholdY vp' = 600 ->
    onScroll headings_intro_setup_usage vp' = Some "setup").
  { intros vp' Hvp. rewrite onScroll_eq. unfold last_qualifying.
    rewrite Hvp. reflexivity. }
  split; [apply sort_by_top_sorted|].
  split; [apply sort_by_top_perm|].
  split; [by apply onScroll_is_Some|].
  split; [done|]. split; [done|]. split.
  - intros toc current h Htoc Hl. apply recompute_onScroll; [done|].
    by apply Hlast.
  - intros toc current vp' Htoc Hvp. apply recompute_onScroll; [done|].
    by apply Hex.
Qed.

Lemma onScroll_last_qualifying_witness :
  headings_intro_setup_usage <> []
  /\ onScroll headings_intro_setup_usage {| pageYOffset := 590; scrollMt := 9 |}
     = Some "setup"
  /\ recompute (createTOC doc_intro_install_usage)
       {| pageYOffset := 590; scrollMt := 9 |}
       {| currentSection := VStr "intro"; headings := headings_intro_setup_usage |}
     = Some {| currentSection := VStr "setup";
               headings := headings_intro_setup_usage |}.
Proof.
  assert (Hne : headings_intro_setup_usage <> []) by discriminate.
  pose proof (onScroll_last_qualifying headings_intro_setup_usage
                {| pageYOffset := 590; scrollMt := 9 |} Hne)
    as (_ & _ & _ & _ & Hex & _ & Hstate).
  split; [exact Hne|]. split.
  - apply Hex. reflexivity.
  - apply Hstate; [discriminate|reflexivity].
Defined.

(** C6.  Once a heading is unregistered, no recomputation over the
    remaining headings selects its id, whatever its former top and whatever
    the threshold: [onScroll] never returns it, and the effect either leaves
    the state alone (nothing left to look at) or sets another id. *)
Theorem unregisterHeading_not_selected i hs vp :
  onScroll (unregisterHeading i hs) vp <> Some i
  /\ forall toc current,
      let st := {| currentSection := current;
                   headings := unregisterHeading i hs |} in
      recompute toc vp st = Some st
      \/ exists s, s <> i
           /\ recompute toc vp st
              = Some {| currentSection := VStr s;
                        headings := unregisterHeading i hs |}.
Proof.
  assert (Hne : onScroll (unregisterHeading i hs) vp <> Some i).
  { intros Hs. apply onScroll_elem in Hs as (h & Hin & Hid).
    by apply unregisterHeading_ids in Hin. }
  split; [done|]. intros toc current st. unfold recompute.
  destruct (decide _) as [|Hgo]; [by left|]. right. simpl.
  destruct (onScroll (unregisterHeading i hs) vp) as [s|] eqn:Hs.
  - exists s. split; [congruence|done].
  - exfalso. destruct (onScroll_is_Some (unregisterHeading i hs) vp) as [s Hs'].
    + intros Hnil. apply Hgo. right. subst st. simpl. by rewrite Hnil.
    + congruence.
Qed.

(** C7.  For a non-empty table of contents the initial active section is the
    slug of its first entry, and as long as no heading is registered the
    recomputation is skipped: the effect returns the state as it is, and so
    does every sequence of scroll events and unregistrations. *)
Theorem no_headings_no_recompute e rest st vp :
  headings st = [] ->
  let toc := e :: rest in
  recompute toc vp st = Some st
  /\ currentSection (useTableOfContents toc) = slug e
  /\ headings (useTableOfContents toc) = []
  /\ forall evs, Forall not_register evs ->
       run toc (useTableOfContents toc) evs = Some (useTableOfContents toc).
Proof.
  intros Hst toc.
  assert (Hskip : forall vp' st',
            headings st' = [] -> recompute toc vp' st' = Some st').
  { intros vp' st' Hst'. unfold recompute. rewrite Hst'.
    by rewrite decide_True by by right. }
  split; [by apply Hskip|]. split; [done|]. split; [done|].
  induction 1 as [|[ev vp'] evs Hev _ IH]; [done|].
  assert (Hstep : step toc (useTableOfContents toc) (ev, vp')
                  = Some (useTableOfContents toc)).
  { destruct ev as [i t l|i|]; [done| |].
    - exact (Hskip vp' (useTableOfContents toc) eq_refl).
    - exact (Hskip vp' (useTableOfContents toc) eq_refl). }
  cbn [run]. by rewrite Hstep.
Qed.

Lemma no_headings_no_recompute_witness :
  headings (useTableOfContents (createTOC doc_intro_install_usage)) = []
  /\ recompute (createTOC doc_intro_install_usage)
       {| pageYOffset := 700; scrollMt := 0 |}
       (useTableOfContents (createTOC doc_intro_install_usage))
     = Some (useTableOfContents (createTOC doc_intro_install_usage))
  /\ currentSection (useTableOfContents (createTOC doc_intro_install_usage))
     = VStr "intro".
Proof.
  split; [reflexivity|].
  pose proof (no_headings_no_recompute
                {| title := VStr "Intro"; slug := VStr "intro";
                   children := [entry_of (heading_of (heading_attrs "install" 3) "Install")] |}
                [entry_of (heading_of (heading_attrs "usage" 2) "Usage")]
                (useTableOfContents (createTOC doc_intro_install_usage))
                {| pageYOffset := 700; scrollMt := 0 |} eq_refl) as (Hskip & Hcur & _).
  split; [exact Hskip|exact Hcur].
Defined.

(** C8.  [registerHeading] is an idempotent upsert: the result holds exactly
    one entry with the given id, which carries the new top and level; the
    entries with other ids are the ones of the old list, in their order; a
    second identical call changes nothing. *)
Theorem registerHeading_upsert i t l hs :
  filter (fun h => id h = i) (registerHeading i t l hs)
    = [{| id := i; top := t; level := l |}]
  /\ filter (fun h => id h <> i) (registerHeading i t l hs)
     = filter (fun h => id h <> i) hs
  /\ registerHeading i t l (registerHeading i t l hs) = registerHeading i t l hs.
Proof.
  unfold registerHeading.
  assert (Hgone : filter (fun h => id h = i) (filter (fun h => i <> id h) hs) = []).
  { rewrite list_filter_filter. induction hs as [|x hs IH]; [done|].
    rewrite filter_cons. destruct (decide _) as [[? ?]|_]; [congruence|done]. }
  assert (Hsame : forall hs', filter (fun h => id h <> i) hs'
                              = filter (fun h => i <> id h) hs').
  { intros hs'. apply list_filter_iff. intros h. split; congruence. }
  repeat split.
  - rewrite filter_app, Hgone, filter_cons, filter_nil. simpl.
    by rewrite decide_True.
  - rewrite filter_app, filter_cons, filter_nil. simpl.
    rewrite decide_False by (intros H; by apply H).
    rewrite app_nil_r, !Hsame, list_filter_filter.
    apply list_filter_iff. tauto.
  - rewrite filter_app, filter_cons, filter_nil. simpl.
    rewrite decide_False by (intros H; by apply H).
    rewrite app_nil_r, list_filter_filter. f_equal.
    apply list_filter_iff. tauto.
Qed.

(** C9.  A missing root ([undefined] or [null]) gives the empty heading
    sequence and the empty table of contents, as any scalar root does; the
    tracker of an empty table of contents keeps its initial active section,
    [undefined], under every sequence of events; and neither the effect nor a
    sequence of events ever raises the exception of [onScroll]. *)
Theorem missing_root_empty_toc :
  collectMarkdocHeadings (Scalar VUndefined) [] = []
  /\ createTOC (Scalar VUndefined) = []
  /\ collectMarkdocHeadings (Scalar VNull) [] = []
  /\ createTOC (Scalar VNull) = []
  /\ (forall v sections, collectMarkdocHeadings (Scalar v) sections = sections)
  /\ (forall evs,
        currentSection <$> run [] (useTableOfContents []) evs = Some VUndefined)
  /\ (forall toc vp st, is_Some (recompute toc vp st))
  /\ (forall toc evs st, is_Some (run toc st evs)).
Proof.
  assert (Hre : forall toc vp st, is_Some (recompute toc vp st)).
  { intros toc vp st. unfold recompute.
    destruct (decide _) as [|Hgo]; [eauto|].
    destruct (onScroll_is_Some (headings st) vp) as [s Hs].
    - intros Hnil. apply Hgo. right. by rewrite Hnil.
    - rewrite Hs. simpl. eauto. }
  assert (Hstep : forall toc st ev, is_Some (step toc st ev)).
  { intros toc st [[] vp]; apply Hre. }
  repeat split; try reflexivity.
  - intros v sections. simpl. by destruct (truthy v).
  - intros evs.
    assert (Hgen : forall st, currentSection st = VUndefined ->
              currentSection <$> run [] st evs = Some VUndefined).
    { induction evs as [|[ev vp] evs IH]; intros st Hst; simpl.
      - by rewrite Hst.
      - destruct ev; simpl; unfold recompute; simpl; apply IH; done. }
    by apply Hgen.
  - done.
  - intros toc evs. induction evs as [|ev evs IH]; intros st; simpl; [eauto|].
    destruct (Hstep toc st ev) as [st' ->]. simpl. apply IH.
Qed.

End Tracker.

(** ** [generateID] *)

Section GenerateID.

Implicit Types (c : ascii) (s w : string).

(** A property of all 256 code units, by cases. *)
Local Ltac by_all_chars c :=
  destruct c as [[] [] [] [] [] [] [] []]; vm_compute; intuition congruence.

Lemma lower_char_not_upper c : is_upper (lower_char c) = false.
Proof. by_all_chars c. Qed.

Lemma lower_char_whitespace c : is_whitespace (lower_char c) = is_whitespace c.
Proof. by_all_chars c. Qed.

Lemma lower_char_question_mark c : lower_char c = "?"%char -> c = "?"%char.
Proof. by_all_chars c. Qed.

Lemma hyphen_not_whitespace : is_whitespace "-" = false.
Proof. reflexivity. Qed.

(** The three rewriting steps, character by character. *)

Lemma remove_question_marks_chars s :
  chars (remove_question_marks s)
  = filter (fun c => c <> "?"%char) (chars s).
Proof.
  induction s as [|c s IH]; [done|]. simpl. rewrite filter_cons.
  destruct (Ascii.eqb_spec c "?"); simpl.
  - by rewrite decide_False by (intros H; by apply H).
  - rewrite decide_True by done. simpl. by rewrite IH.
Qed.

Lemma toLowerCase_chars s : chars (toLowerCase s) = map lower_char (chars s).
Proof. induction s as [|c s IH]; [done|]. simpl. by rewrite IH. Qed.

Lemma replace_whitespace_char b c s :
  is_whitespace c = false ->
  replace_whitespace_from b (String c s) = String c (replace_whitespace_runs s).
Proof. intros Hc. simpl. by rewrite Hc. Qed.

Lemma replace_whitespace_from_run_ends s :
  run_ends s -> replace_whitespace_from true s = replace_whitespace_from false s.
Proof. destruct s as [|c s]; simpl; [done|]. by intros ->. Qed.

Lemma replace_whitespace_from_skip w s :
  Forall (fun c => is_whitespace c = true) (chars w) ->
  replace_whitespace_from true (w +:+ s) = replace_whitespace_from true s.
Proof.
  induction w as [|c w IH]; simpl; [done|]. intros Hw.
  apply Forall_cons in Hw as [-> Hw]. by apply IH.
Qed.

(** A maximal run of whitespace becomes one hyphen. *)
Lemma replace_whitespace_run c w s :
  Forall (fun c => is_whitespace c = true) (chars (String c w)) ->
  run_ends s ->
  replace_whitespace_runs (String c w +:+ s)
  = String "-" (replace_whitespace_runs s).
Proof.
  intros Hw Hs. simpl in Hw. apply Forall_cons in Hw as [Hc Hw].
  unfold replace_whitespace_runs. simpl. rewrite Hc. f_equal.
  rewrite replace_whitespace_from_skip by done.
  by apply replace_whitespace_from_run_ends.
Qed.

Lemma replace_whitespace_from_chars b s :
  Forall (fun c => is_whitespace c = false) (chars (replace_whitespace_from b s)).
Proof.
  revert b. induction s as [|c s IH]; intros b; simpl; [constructor|].
  destruct (is_whitespace c) eqn:Hc.
  - destruct b; simpl; [apply IH|]. constructor; [done|apply IH].
  - simpl. constructor; [done|apply IH].
Qed.

Lemma replace_whitespace_from_question_mark b s :
  Forall (fun c => c <> "?"%char) (chars s) ->
  Forall (fun c => c <> "?"%char) (chars (replace_whitespace_from b s)).
Proof.
  revert b. induction s as [|c s IH]; intros b; simpl; [constructor|].
  intros Hs. apply Forall_cons in Hs as [Hc Hs].
  destruct (is_whitespace c), b; simpl; repeat constructor; auto; discriminate.
Qed.

(** The derived id holds no question mark, no whitespace and no upper-case
    letter. *)
Lemma derived_id_chars children :
  Forall (fun c => c <> "?"%char /\ is_whitespace c = false /\ is_upper c = false)
         (chars (derived_id children)).
Proof.
  unfold derived_id. rewrite toLowerCase_chars. apply Forall_fmap.
  set (s := join_string_children children).
  assert (Hq : Forall (fun c => c <> "?"%char) (chars (remove_question_marks s))).
  { rewrite remove_question_marks_chars. apply Forall_forall.
    intros c Hc. by apply list_elem_of_filter in Hc as [Hc _]. }
  apply (replace_whitespace_from_question_mark false) in Hq.
  pose proof (replace_whitespace_from_chars false (remove_question_marks s)) as Hw.
  unfold replace_whitespace_runs.
  eapply Forall_impl; [apply Forall_and; split; [exact Hq|exact Hw]|].
  intros c [Hc Hws]. simpl. split; [|split].
  - intros Hl. by apply lower_char_question_mark in Hl.
  - by rewrite lower_char_whitespace.
  - apply lower_char_not_upper.
Qed.

Lemma generateID_explicit children attributes s :
  prop attributes "id" = VStr s -> s <> "" ->
  generateID children attributes = s.
Proof.
  intros Hid Hs. unfold generateID. rewrite Hid. simpl.
  by destruct (String.eqb_spec s "").
Qed.

Lemma generateID_derived children attributes :
  prop attributes "id" = VStr "" \/ is_string (prop attributes "id") = false ->
  generateID children attributes = derived_id children.
Proof.
  unfold generateID. intros [->|Hid]; [done|].
  by destruct (prop attributes "id").
Qed.

(** C5.  [generateID] is a function of its two arguments; with the explicit
    id "foo" it returns "foo" whatever the children are; without an explicit
    string id it returns the string children joined, question marks
    removed, whitespace runs turned into hyphens, in lower case, so that no
    question mark, whitespace or upper-case letter is left. *)
Theorem generateID_spec children attributes :
  (forall children' attributes',
     children' = children -> attributes' = attributes ->
     generateID children' attributes' = generateID children attributes)
  /\ (prop attributes "id" = VStr "foo" -> generateID children attributes = "foo")
  /\ (is_string (prop attributes "id") = false ->
      generateID children attributes
      = toLowerCase
          (replace_whitespace_runs
             (remove_question_marks
                (String.concat " " (omap string_child children))))
      /\ Forall (fun c => c <> "?"%char /\ is_whitespace c = false
                          /\ is_upper c = false)
                (chars (generateID children attributes))).
Proof.
  split; [|split].
  - by intros children' attributes' -> ->.
  - intros Hid. by apply generateID_explicit.
  - intros Hid. rewrite generateID_derived by by right.
    split; [done|apply derived_id_chars].
Qed.

Lemma generateID_spec_witness :
  generateID [Scalar (VStr "What is  This?"); Tag "code" ∅ []]
             (heading_attrs "foo" 2) = "foo"
  /\ generateID [Scalar (VStr "What is  This?"); Tag "code" ∅ []] ∅
     = "what-is-this".
Proof.
  split.
  - apply (generateID_spec [Scalar (VStr "What is  This?"); Tag "code" ∅ []]
             (heading_attrs "foo" 2)). reflexivity.
  - assert (Hid : is_string (prop (∅ : gmap string value) "id") = false)
      by reflexivity.
    rewrite (proj1 (proj2 (proj2 (generateID_spec
               [Scalar (VStr "What is  This?"); Tag "code" ∅ []] ∅)) Hid)).
    reflexivity.
Defined.

(** C10, as the specification words it, fails: for a heading without string
    children and with the empty string as id attribute the result is the
    empty string, which is that id. *)
Lemma generateID_returns_empty_id :
  ~ returns_another_id [] (<["id" := VStr ""]> ∅).
Proof. intros Hne. apply Hne. reflexivity. Qed.

(** C10, as amended.  An id attribute that is the empty string, or not a
    string at all, is ignored: the result is the id derived from the string
    children, the same as without the attribute; it is equal to the
    attribute in one case only, when the attribute is the empty string and
    the derived id is empty too. *)
Theorem generateID_ignores_empty_id children attributes :
  prop attributes "id" = VStr "" \/ is_string (prop attributes "id") = false ->
  generateID children attributes = derived_id children
  /\ generateID children attributes = generateID children (delete "id" attributes)
  /\ (derived_id children <> "" ->
      VStr (generateID children attributes) <> prop attributes "id")
  /\ (VStr (generateID children attributes) = prop attributes "id"
      <-> prop attributes "id" = VStr "" /\ derived_id children = "").
Proof.
  intros Hid. rewrite (generateID_derived _ _ Hid). split; [done|]. split.
  - symmetry. apply generateID_derived. right.
    unfold prop. by rewrite lookup_delete_eq.
  - split.
    + intros Hne Heq. destruct Hid as [Hid|Hid]; rewrite <- Heq in Hid.
      * congruence.
      * done.
    + split.
      * intros Heq. destruct Hid as [Hid|Hid].
        -- split; [done|]. rewrite Hid in Heq. congruence.
        -- rewrite <- Heq in Hid. done.
      * intros [-> ->]. done.
Qed.

Lemma generateID_ignores_empty_id_witness :
  generateID [Scalar (VStr "What is  This?")] (<["id" := VStr ""]> ∅)
  = "what-is-this".
Proof.
  assert (Hid : prop (<["id" := VStr ""]> (∅ : gmap string value)) "id" = VStr "")
    by reflexivity.
  rewrite (proj1 (generateID_ignores_empty_id
                    [Scalar (VStr "What is  This?")] (<["id" := VStr ""]> ∅)
                    (or_introl Hid))).
  reflexivity.
Defined.

End GenerateID.

(** ** More on heading extraction *)

Section Extraction.

Implicit Types (node : Node) (sections : list MarkdocHeading).

(** Induction on trees, with the hypothesis for every child of a tag. *)
Lemma Node_nested_ind (P : Node -> Prop) :
  (forall v, P (Scalar v)) ->
  (forall name attributes children,
     Forall P children -> P (Tag name attributes children)) ->
  forall node, P node.
Proof.
  intros Hscalar Htag. fix IH 1. intros [v|name attributes children].
  - apply Hscalar.
  - apply Htag. induction children as [|child children IHc]; constructor.
    + apply IH.
    + apply IHc.
Qed.

Lemma collect_children_app (children : list Node) :
  Forall (fun child => forall sections,
            collectMarkdocHeadings child sections
            = sections ++ collectMarkdocHeadings child []) children ->
  forall sections,
    fold_left (fun sections child => collectMarkdocHeadings child sections)
              children sections
    = sections ++ flat_map (fun child => collectMarkdocHeadings child []) children.
Proof.
  induction 1 as [|child children Hchild _ IH]; intros sections; simpl.
  - by rewrite app_nil_r.
  - rewrite IH, Hchild. by rewrite <- app_assoc.
Qed.

Lemma collectMarkdocHeadings_Tag name attributes children sections :
  collectMarkdocHeadings (Tag name attributes children) sections
  = fold_left (fun sections child => collectMarkdocHeadings child sections)
      children (sections ++ own_heading (Tag name attributes children)).
Proof.
  simpl. destruct (String.eqb name "Heading").
  - destruct children as [|[[]|] ?]; by rewrite ?app_nil_r.
  - destruct children as [|[[]|] ?]; by rewrite ?app_nil_r.
Qed.

Lemma collect_app node sections :
  collectMarkdocHeadings node sections
  = sections ++ collectMarkdocHeadings node [].
Proof.
  revert sections. induction node as [v|name attributes children IH]
    using Node_nested_ind; intros sections.
  - simpl. destruct (truthy v); by rewrite app_nil_r.
  - rewrite !collectMarkdocHeadings_Tag, !collect_children_app by done.
    simpl. by rewrite <- app_assoc.
Qed.

Lemma collect_preorder name attributes children :
  collectMarkdocHeadings (Tag name attributes children) []
  = own_heading (Tag name attributes children)
      ++ flat_map (fun child => collectMarkdocHeadings child []) children.
Proof.
  rewrite collectMarkdocHeadings_Tag, collect_children_app; [done|].
  apply Forall_forall. intros child _ sections. apply collect_app.
Qed.

(** X1.  The traversal only appends: called with an array that already
    holds entries, it returns those entries, untouched and in place,
    followed by what it returns on an empty array. *)
Theorem collectMarkdocHeadings_app node sections :
  collectMarkdocHeadings node sections
  = sections ++ collectMarkdocHeadings node [].
Proof. apply collect_app. Qed.

(** X2.  The headings come out in document order (pre-order): a tag gives
    its own heading, if it is a Heading whose first child is a string, and
    then the headings of its children from left to right, also when the tag
    itself is a heading or a heading that was skipped. *)
Theorem collectMarkdocHeadings_preorder name attributes children :
  collectMarkdocHeadings (Tag name attributes children) []
  = own_heading (Tag name attributes children)
      ++ flat_map (fun child => collectMarkdocHeadings child []) children.
Proof. apply collect_preorder. Qed.

End Extraction.

(** ** More on the table of contents *)

Section RenderedTOC.

Implicit Types (h : MarkdocHeading) (hs : list MarkdocHeading)
  (e : TOCEntry) (toc : TOC) (node : Node).

Lemma createTOC_eq node :
  createTOC node
  = match subsections (collectMarkdocHeadings node []) with
    | [] => toc_spec (collectMarkdocHeadings node [])
    | lead => orphan_entry lead :: toc_spec (collectMarkdocHeadings node [])
    end.
Proof. unfold createTOC. apply createTOC_loop_init. Qed.

Lemma toc_spec_children hs e :
  e ∈ toc_spec hs -> exists subs, children e = map entry_of subs.
Proof.
  induction hs as [|h hs IH]; simpl; [by intros ?%elem_of_nil|].
  destruct (decide (h_level h = VNum 2)); [|done].
  intros [->|He]%elem_of_cons; [|by apply IH]. simpl. eauto.
Qed.

Lemma createTOC_children_leaf node e c :
  e ∈ createTOC node -> c ∈ children e -> children c = [].
Proof.
  rewrite createTOC_eq. intros He Hc.
  assert (Hsubs : exists subs, children e = map entry_of subs).
  { destruct (subsections _) as [|x lead]; [by eapply toc_spec_children|].
    apply elem_of_cons in He as [->|He]; [|by eapply toc_spec_children].
    by exists (x :: lead). }
  destruct Hsubs as [subs Hsubs]. rewrite Hsubs in Hc.
  apply list_elem_of_fmap in Hc as (h & -> & _). reflexivity.
Qed.

(** X3.  The table of contents is never deeper than two levels: whatever the
    document, the children of a top-level entry have no children of their
    own. *)
Theorem createTOC_depth node e c :
  e ∈ createTOC node -> c ∈ children e -> children c = [].
Proof. apply createTOC_children_leaf. Qed.

Lemma createTOC_depth_witness :
  {| title := VStr "Intro"; slug := VStr "intro";
     children := [entry_of (heading_of (heading_attrs "install" 3) "Install")] |}
    ∈ createTOC doc_intro_install_usage
  /\ children (entry_of (heading_of (heading_attrs "install" 3) "Install")) = [].
Proof.
  assert (He : {| title := VStr "Intro"; slug := VStr "intro";
       children := [entry_of (heading_of (heading_attrs "install" 3) "Install")] |}
    ∈ createTOC doc_intro_install_usage) by left.
  split; [exact He|].
  apply (createTOC_depth doc_intro_install_usage _ _ He). left.
Defined.

Lemma TableOfContents_cons current e toc :
  TableOfContents (e :: toc) current
  = toc_row current false e
      :: map (toc_row current true) (children e) ++ TableOfContents toc current.
Proof. reflexivity. Qed.

Lemma row_item_children current subs :
  map row_item (map (toc_row current true) (map entry_of subs))
  = map (fun h => (VStr (h_title h), h_id h, true)) subs.
Proof. induction subs as [|h subs IH]; [done|]. simpl. by rewrite IH. Qed.

Lemma TableOfContents_toc_spec current hs :
  map (fun h => (VStr (h_title h), h_id h, true)) (subsections hs)
    ++ map row_item (TableOfContents (toc_spec hs) current)
  = map heading_item
        (filter (fun x => h_level x = VNum 2 \/ h_level x = VNum 3) hs).
Proof.
  induction hs as [|h hs IH]; [done|]. simpl. rewrite filter_cons.
  destruct (decide (h_level h = VNum 2)) as [H2|H2].
  - rewrite decide_True by tauto.
    rewrite TableOfContents_cons. simpl. rewrite map_app, row_item_children, IH.
    unfold heading_item at 2. rewrite H2.
    by rewrite bool_decide_eq_false_2 by discriminate.
  - destruct (decide (h_level h = VNum 3)) as [H3|H3].
    + rewrite decide_True by tauto. simpl. rewrite IH.
      unfold heading_item at 2. by rewrite bool_decide_eq_true_2.
    + rewrite decide_False by tauto. apply IH.
Qed.

(** X4.  The rendered list has one item for each heading of level 2 or 3,
    in document order, with the heading's title and id, indented exactly
    when the level is 3; a document that opens with a level-3 heading gets
    one more item in front, without title and anchor. *)
Theorem TableOfContents_items node current :
  let hs := collectMarkdocHeadings node [] in
  map (fun r => (row_title r, row_slug r, row_nested r))
      (TableOfContents (createTOC node) current)
  = match subsections hs with
    | [] => []
    | _ => [(VUndefined, VUndefined, false)]
    end
    ++ map (fun h => (VStr (h_title h), h_id h, bool_decide (h_level h = VNum 3)))
           (filter (fun x => h_level x = VNum 2 \/ h_level x = VNum 3) hs).
Proof.
  intros hs. rewrite createTOC_eq. fold hs.
  pose proof (TableOfContents_toc_spec current hs) as Hspec.
  unfold heading_item, row_item in Hspec.
  destruct (subsections hs) as [|x lead] eqn:Hlead.
  - simpl in *. exact Hspec.
  - rewrite TableOfContents_cons. simpl map at 1. rewrite <- Hspec.
    rewrite map_app.
    pose proof (row_item_children current lead) as Hrows.
    unfold row_item in Hrows. rewrite Hrows. reflexivity.
Qed.

Lemma isActive_eq current e :
  isActive current e
  = if decide (slug e = current) then true
    else existsb (isActive current) (children e).
Proof. by destruct e. Qed.

(** X5.  In a table of contents built by [createTOC], a section is
    highlighted exactly when the current section is its own slug or the slug
    of one of its subsections; so the section of the current subsection is
    highlighted with it. *)
Theorem isActive_section node current e :
  e ∈ createTOC node ->
  (isActive current e = true
   <-> slug e = current \/ exists c, c ∈ children e /\ slug c = current).
Proof.
  intros He. rewrite isActive_eq.
  destruct (decide (slug e = current)) as [Hs|Hs]; [tauto|].
  rewrite existsb_exists. split.
  - intros (c & Hc & Hact). right. exists c.
    apply list_elem_of_In in Hc. split; [done|].
    rewrite isActive_eq, (createTOC_children_leaf node e c He Hc) in Hact.
    by destruct (decide (slug c = current)).
  - intros [?|(c & Hc & Hcur)]; [done|]. exists c.
    split; [by apply list_elem_of_In|].
    rewrite isActive_eq. by rewrite decide_True.
Qed.

Lemma isActive_section_witness :
  {| title := VStr "Intro"; slug := VStr "intro";
     children := [entry_of (heading_of (heading_attrs "install" 3) "Install")] |}
    ∈ createTOC doc_intro_install_usage
  /\ isActive (VStr "install")
       {| title := VStr "Intro"; slug := VStr "intro";
          children := [entry_of (heading_of (heading_attrs "install" 3) "Install")] |}
     = true.
Proof.
  assert (He : {| title := VStr "Intro"; slug := VStr "intro";
       children := [entry_of (heading_of (heading_attrs "install" 3) "Install")] |}
    ∈ createTOC doc_intro_install_usage) by left.
  split; [exact He|].
  apply (isActive_section doc_intro_install_usage (VStr "install") _ He).
  right. eexists. split; [left|reflexivity].
Defined.

Lemma toc_spec_first hs :
  from_option slug VUndefined (toc_spec hs !! 0%nat)
  = from_option h_id VUndefined
      (head (filter (fun x => h_level x = VNum 2) hs)).
Proof.
  induction hs as [|h hs IH]; [done|]. simpl. rewrite filter_cons.
  by destruct (decide (h_level h = VNum 2)).
Qed.

(** X6.  The hook starts on the first section: the initial active section of
    the table of contents of a document is the id of its first level-2
    heading, and it is undefined when the document has no level-2 heading or
    opens with a level-3 heading. *)
Theorem useTableOfContents_createTOC node :
  let hs := collectMarkdocHeadings node [] in
  currentSection (useTableOfContents (createTOC node))
  = match subsections hs with
    | [] => from_option h_id VUndefined
              (head (filter (fun x => h_level x = VNum 2) hs))
    | _ => VUndefined
    end.
Proof.
  intros hs. rewrite createTOC_eq. fold hs. unfold useTableOfContents. simpl.
  destruct (subsections hs); [apply toc_spec_first|done].
Qed.

End RenderedTOC.

(** ** The heading tag and its id *)

Section HeadingTag.

Implicit Types (c : ascii) (s : string) (attributes : gmap string value)
  (children : list Node).

Lemma remove_question_marks_id s :
  Forall (fun c => c <> "?"%char) (chars s) -> remove_question_marks s = s.
Proof.
  induction s as [|c s IH]; [done|]. simpl. intros [Hc Hs]%Forall_cons.
  destruct (Ascii.eqb_spec c "?"); [done|]. by rewrite IH.
Qed.

Lemma replace_whitespace_from_id b s :
  Forall (fun c => is_whitespace c = false) (chars s) ->
  replace_whitespace_from b s = s.
Proof.
  revert b. induction s as [|c s IH]; intros b; [done|]. simpl.
  intros [-> Hs]%Forall_cons. by rewrite IH.
Qed.

Lemma toLowerCase_id s :
  Forall (fun c => is_upper c = false) (chars s) -> toLowerCase s = s.
Proof.
  induction s as [|c s IH]; [done|]. simpl. intros [Hc Hs]%Forall_cons.
  unfold lower_char. by rewrite Hc, IH.
Qed.

(** X7.  The derived id is a fixed point of the derivation: a heading whose
    only text is the id derived for another heading gets that same id. *)
Theorem generateID_fixed_point children :
  generateID [Scalar (VStr (generateID children ∅))] ∅ = generateID children ∅.
Proof.
  change (derived_id [Scalar (VStr (derived_id children))] = derived_id children).
  pose proof (derived_id_chars children) as Hchars.
  unfold derived_id at 1, join_string_children. simpl.
  unfold replace_whitespace_runs.
  rewrite remove_question_marks_id, replace_whitespace_from_id, toLowerCase_id;
    [done|..]; eapply Forall_impl; try exact Hchars; simpl; tauto.
Qed.

Lemma headingNode_transform_id attributes children level' :
  prop (<["level" := level']>
          (<["id" := VStr (generateID children attributes)]> attributes)) "id"
  = VStr (generateID children attributes).
Proof.
  unfold prop. rewrite lookup_insert_ne by done. by rewrite lookup_insert_eq.
Qed.

Lemma generateID_empty children attributes :
  generateID children attributes = "" -> derived_id children = "".
Proof.
  unfold generateID. destruct (prop attributes "id") as [| | | |s]; try done.
  simpl. destruct (String.eqb s "") eqn:He; simpl; [done|].
  intros ->. by rewrite String.eqb_refl in He.
Qed.

(** X8.  Transforming a heading is idempotent: the tag it returns carries
    the generated id, [generateID] on that tag's attributes returns the same
    id again, and a second transformation returns the same tag. *)
Theorem headingNode_transform_idempotent attributes children level' :
  let attributes' :=
    <["level" := level']>
      (<["id" := VStr (generateID children attributes)]> attributes) in
  headingNode_transform attributes children level'
    = Tag "Heading" attributes' children
  /\ generateID children attributes' = generateID children attributes
  /\ headingNode_transform attributes' children level'
     = headingNode_transform attributes children level'.
Proof.
  intros attributes'.
  assert (Hid : generateID children attributes' = generateID children attributes).
  { unfold generateID at 1. unfold attributes'.
    rewrite headingNode_transform_id. simpl.
    destruct (String.eqb_spec (generateID children attributes) "") as [He|]; [|done].
    rewrite He. by apply (generateID_empty children attributes). }
  split; [done|]. split; [done|].
  unfold headingNode_transform. rewrite Hid. fold attributes'. f_equal.
  unfold attributes'. apply map_eq. intros k.
  destruct (decide (k = "level")) as [->|Hl].
  - by rewrite !lookup_insert_eq.
  - rewrite !(lookup_insert_ne _ "level") by done.
    destruct (decide (k = "id")) as [->|Hi].
    + by rewrite !lookup_insert_eq.
    + by rewrite !lookup_insert_ne by done.
Qed.

(** X9.  What the extractor sees of a transformed heading: when its first
    child is a string, the heading is extracted with that string as title,
    the generated id (a string) and the node's level, ahead of the headings
    inside its other children; when its first child is anything else, the
    heading itself is skipped and only the headings inside its children are
    extracted. *)
Theorem collectMarkdocHeadings_transform attributes children level' :
  collectMarkdocHeadings (headingNode_transform attributes children level') []
  = match children with
    | Scalar (VStr text) :: _ =>
        [ {| h_title := text;
             h_id := VStr (generateID children attributes);
             h_level := level' |} ]
    | _ => []
    end
    ++ flat_map (fun child => collectMarkdocHeadings child []) children.
Proof.
  unfold headingNode_transform. rewrite collect_preorder.
  f_equal. destruct children as [|[[| | | |text]|] rest]; try done.
  simpl. unfold heading_of. f_equal. f_equal.
  - apply headingNode_transform_id.
  - unfold prop. by rewrite lookup_insert_eq.
Qed.

End HeadingTag.

(** ** Fenced code *)

Section FenceCode.

Implicit Types (c : ascii) (s : string).

Lemma trimStart_run_ends s : run_ends (trimStart s).
Proof.
  induction s as [|c s IH]; simpl; [done|].
  destruct (is_whitespace c) eqn:Hc; [done|]. simpl. done.
Qed.

Lemma trimStart_id s : run_ends s -> trimStart s = s.
Proof. destruct s as [|c s]; simpl; [done|]. by intros ->. Qed.

Lemma trimEnd_run_ends s : run_ends s -> run_ends (trimEnd s).
Proof.
  destruct s as [|c s]; simpl; [done|]. intros Hc.
  destruct (trimEnd s); by rewrite ?Hc.
Qed.

Lemma trimEnd_last s c :
  last (chars (trimEnd s)) = Some c -> is_whitespace c = false.
Proof.
  induction s as [|c' s IH]; simpl; [done|].
  destruct (trimEnd s) as [|c'' rest] eqn:Hrest.
  - destruct (is_whitespace c') eqn:Hc'; simpl; [done|]. congruence.
  - simpl in *. intros Hl. apply IH. by destruct (chars rest).
Qed.

Lemma trimEnd_idempotent s : trimEnd (trimEnd s) = trimEnd s.
Proof.
  induction s as [|c s IH]; simpl; [done|].
  destruct (trimEnd s) as [|c' rest] eqn:Hrest.
  - destruct (is_whitespace c) eqn:Hc; simpl; [done|]. by rewrite Hc.
  - simpl in *. rewrite IH. reflexivity.
Qed.

Lemma trim_idempotent s : trim (trim s) = trim s.
Proof.
  unfold trim.
  rewrite (trimStart_id (trimEnd (trimStart s)))
    by apply trimEnd_run_ends, trimStart_run_ends.
  apply trimEnd_idempotent.
Qed.

Lemma trim_ends s c :
  head (chars (trim s)) = Some c \/ last (chars (trim s)) = Some c ->
  is_whitespace c = false.
Proof.
  intros [Hh|Hl]; [|by eapply trimEnd_last].
  pose proof (trimEnd_run_ends _ (trimStart_run_ends s)) as Hr.
  unfold trim in Hh. destruct (trimEnd (trimStart s)); simpl in *; congruence.
Qed.

(** X10.  The code that [Fence] displays never starts or ends with
    whitespace, whatever its children are, and it is stable: a fence whose
    child is the displayed code of another fence displays the same code. *)
Theorem Fence_code_trimmed children :
  (forall c,
     head (chars (Fence_code children)) = Some c
     \/ last (chars (Fence_code children)) = Some c ->
     is_whitespace c = false)
  /\ Fence_code (FScalar (VStr (Fence_code children))) = Fence_code children.
Proof.
  assert (Hcases : Fence_code children = ""
                   \/ exists s, Fence_code children = trim s).
  { destruct children as [[| |b|n|s]|items|]; simpl; eauto.
    - left. by destruct b.
    - left. by destruct (n =? 0).
    - destruct (String.eqb s ""); simpl; eauto. }
  split.
  - intros c. destruct Hcases as [->|[s ->]]; [by intros [|]|apply trim_ends].
  - destruct Hcases as [->|[s ->]]; [done|]. simpl.
    destruct (String.eqb_spec (trim s) "") as [He|_]; simpl.
    + by rewrite He.
    + apply trim_idempotent.
Qed.

End FenceCode.

(** ** More on the tracker *)

Section TrackerRuns.

Implicit Types (h q : ContentHeading) (hs : list ContentHeading)
  (vp : Viewport) (st : Tracker) (toc : TOC).

Lemma unregisterHeading_absent i hs :
  i ∉ map id hs -> unregisterHeading i hs = hs.
Proof.
  unfold unregisterHeading. induction hs as [|h hs IH]; [done|].
  simpl. intros Hi. apply not_elem_of_cons in Hi as [Hh Hi].
  rewrite filter_cons, decide_True by done. by rewrite IH.
Qed.

(** X11.  Registration and unregistration round-trip: unregistering an id
    that is not registered changes nothing, and registering such an id and
    unregistering it again gives back the list as it was, in its order. *)
Theorem unregisterHeading_registerHeading i t l hs :
  i ∉ map id hs ->
  unregisterHeading i hs = hs
  /\ unregisterHeading i (registerHeading i t l hs) = hs.
Proof.
  intros Hi. split; [by apply unregisterHeading_absent|].
  unfold registerHeading. fold (unregisterHeading i hs).
  rewrite (unregisterHeading_absent i hs) by done.
  unfold unregisterHeading. rewrite filter_app, filter_cons, filter_nil. simpl.
  rewrite decide_False by (intros H; by apply H).
  rewrite app_nil_r. by apply unregisterHeading_absent.
Qed.

Lemma unregisterHeading_registerHeading_witness :
  ("faq" ∉ map id headings_intro_setup_usage)
  /\ unregisterHeading "faq"
       (registerHeading "faq" 1500 2 headings_intro_setup_usage)
     = headings_intro_setup_usage.
Proof.
  assert (Hi : "faq" ∉ map id headings_intro_setup_usage).
  { simpl. intros Hin. repeat (apply elem_of_cons in Hin as [Hin|Hin]; [discriminate|]).
    by apply elem_of_nil in Hin. }
  split; [exact Hi|].
  apply (unregisterHeading_registerHeading "faq" 1500 2 _ Hi).
Defined.

(** The effect either returns the state as it is, at its guard, or sets the
    id of one of the registered headings. *)
Lemma recompute_cases toc vp st :
  (recompute toc vp st = Some st /\ (toc = [] \/ headings st = []))
  \/ (toc <> [] /\ exists h, h ∈ headings st
        /\ recompute toc vp st
           = Some {| currentSection := VStr (id h); headings := headings st |}).
Proof.
  unfold recompute. destruct (decide _) as [Hskip|Hgo].
  - left. split; [done|]. destruct Hskip as [H|H]; [left|right];
      by apply length_zero_iff_nil.
  - right. split; [intros ->; apply Hgo; by left|].
    destruct (onScroll_is_Some (headings st) vp) as [s Hs].
    { intros Hnil. apply Hgo. right. by rewrite Hnil. }
    destruct (onScroll_elem _ _ _ Hs) as (h & Hin & <-).
    exists h. split; [done|]. by rewrite Hs.
Qed.

Lemma recompute_headings toc vp st st' :
  recompute toc vp st = Some st' -> headings st' = headings st.
Proof.
  destruct (recompute_cases toc vp st) as [[-> _]|(_ & h & _ & ->)];
    by intros [= <-].
Qed.

Lemma step_NoDup toc st ev st' :
  NoDup (map id (headings st)) -> step toc st ev = Some st' ->
  NoDup (map id (headings st')).
Proof.
  intros Hnd. destruct ev as [[i t l|i|] vp]; simpl;
    intros ->%recompute_headings; simpl;
    auto using registerHeading_NoDup, unregisterHeading_NoDup.
Qed.

Lemma step_is_Some toc st ev : is_Some (step toc st ev).
Proof.
  destruct ev as [[i t l|i|] vp]; simpl;
    match goal with |- is_Some (recompute ?toc ?vp ?st) =>
      destruct (recompute_cases toc vp st) as [[-> _]|(_ & h & _ & ->)]
    end; eauto.
Qed.

(** X12.  Every sequence of registrations, unregistrations and scroll
    events runs to a state, and in that state no two registered headings
    share an id. *)
Theorem run_NoDup toc evs :
  exists st, run toc (useTableOfContents toc) evs = Some st
             /\ NoDup (map id (headings st)).
Proof.
  assert (Hgen : forall st, NoDup (map id (headings st)) ->
            exists st', run toc st evs = Some st'
                        /\ NoDup (map id (headings st'))).
  { induction evs as [|ev evs IH]; intros st Hnd; simpl; [eauto|].
    destruct (step_is_Some toc st ev) as [st1 Hst1]. rewrite Hst1. simpl.
    apply IH. by eapply step_NoDup. }
  apply Hgen. simpl. constructor.
Qed.

Lemma step_active e rest st ev st' :
  step (e :: rest) st ev = Some st' ->
  headings st' = []
  \/ exists h, h ∈ headings st' /\ currentSection st' = VStr (id h).
Proof.
  destruct ev as [[i t l|i|] vp]; simpl;
    match goal with |- recompute ?toc ?vp ?st = _ -> _ =>
      destruct (recompute_cases toc vp st)
        as [[-> [?|Hnil]]|(_ & h & Hin & ->)]; [done| |];
      intros [= <-]; simpl in *; eauto
    end.
Qed.

(** X13.  With a non-empty table of contents, after every sequence of
    events the active section names a heading that is registered at that
    moment, unless no heading is registered at all. *)
Theorem run_active_registered e rest evs :
  exists st, run (e :: rest) (useTableOfContents (e :: rest)) evs = Some st
    /\ (headings st = []
        \/ exists h, h ∈ headings st /\ currentSection st = VStr (id h)).
Proof.
  assert (Hgen : forall st,
            (headings st = []
             \/ exists h, h ∈ headings st /\ currentSection st = VStr (id h)) ->
            exists st', run (e :: rest) st evs = Some st'
              /\ (headings st' = []
                  \/ exists h, h ∈ headings st'
                       /\ currentSection st' = VStr (id h))).
  { induction evs as [|ev evs IH]; intros st Hinv; simpl; [eauto|].
    destruct (step_is_Some (e :: rest) st ev) as [st1 Hst1]. rewrite Hst1. simpl.
    apply IH. by eapply step_active. }
  apply Hgen. by left.
Qed.

Lemma onScroll_single h vp : onScroll [h] vp = Some (id h).
Proof. unfold onScroll, scan. simpl. by destruct (qualifies _ h). Qed.

(** X14.  When the last registered heading goes away the active section is
    not reset.  If a heading is registered in one commit, so that the effect
    runs and selects it, and unregistered in a later commit, then no heading
    is registered and the active section still is the id of the removed
    one.  If both calls fall into one commit, the effect sees no heading and
    the active section stays the slug of the first entry. *)
Theorem unregister_last_keeps_section e rest i t l vp vp' :
  let toc := e :: rest in
  commit toc vp [URegister i t l] (useTableOfContents toc)
    = Some {| currentSection := VStr i;
              headings := [{| id := i; top := t; level := l |}] |}
  /\ commit toc vp' [UUnregister i]
       {| currentSection := VStr i;
          headings := [{| id := i; top := t; level := l |}] |}
     = Some {| currentSection := VStr i; headings := [] |}
  /\ commit toc vp [URegister i t l; UUnregister i] (useTableOfContents toc)
     = Some {| currentSection := slug e; headings := [] |}.
Proof.
  intros toc.
  assert (Hgone : unregisterHeading i [{| id := i; top := t; level := l |}] = []).
  { unfold unregisterHeading. rewrite filter_cons, filter_nil. simpl.
    by rewrite decide_False by (intros H; by apply H). }
  split; [|split].
  - unfold commit. simpl. apply recompute_onScroll; [done|].
    apply onScroll_single.
  - unfold commit. simpl. rewrite Hgone. reflexivity.
  - unfold commit. simpl. unfold registerHeading. simpl.
    rewrite Hgone. reflexivity.
Qed.

(** *** The active heading by its position on the page *)

Lemma sort_by_top_strongly_sorted hs : StronglySorted by_top (sort_by_top hs).
Proof.
  pose proof by_top_transitive.
  apply Sorted_StronglySorted; [done|apply sort_by_top_sorted].
Qed.

Lemma onScroll_extremal_aux hs vp :
  hs <> [] ->
  exists h, h ∈ hs /\ onScroll hs vp = Some (id h)
    /\ ((Qualifies (thresholdY vp) h
         /\ forall q, q ∈ hs -> Qualifies (thresholdY vp) q -> top q <= top h)
        \/ ((forall q, q ∈ hs -> ~ Qualifies (thresholdY vp) q)
            /\ forall q, q ∈ hs -> top h <= top q)).
Proof.
  intros Hne. rewrite onScroll_eq.
  pose proof (sort_by_top_strongly_sorted hs) as Hsorted.
  pose proof (sort_by_top_perm hs) as Hperm.
  destruct (sort_by_top hs) as [|first sorted] eqn:Hs.
  { by apply sort_by_top_nil in Hs. }
  simpl. unfold last_qualifying. rewrite Hs.
  destruct (last (filter _ (first :: sorted))) as [h|] eqn:Hl; simpl.
  - assert (Hh : h ∈ filter (Qualifies (thresholdY vp)) (first :: sorted))
      by by eapply last_Some_elem_of.
    apply list_elem_of_filter in Hh as [Hq Hh].
    exists h. split; [by rewrite <- Hperm|]. split; [done|]. left.
    split; [done|]. intros q Hin Hqq. rewrite <- Hperm in Hin.
    apply last_filter_Some in Hl as (l1 & l2 & Heq & Hl2).
    rewrite Heq in Hin, Hsorted.
    apply elem_of_app in Hin as [Hin|Hin].
    + apply (StronglySorted_app_1_elem_of by_top l1 (h :: l2) q h Hsorted Hin).
      left.
    + apply elem_of_cons in Hin as [->|Hin]; [done|].
      rewrite Forall_forall in Hl2. by destruct (Hl2 q Hin).
  - exists first. split; [rewrite <- Hperm; left|]. split; [done|]. right.
    apply last_None in Hl. split.
    + intros q Hin Hq. rewrite <- Hperm in Hin.
      assert (Hf : q ∈ filter (Qualifies (thresholdY vp)) (first :: sorted))
        by by apply list_elem_of_filter.
      rewrite Hl in Hf. by apply elem_of_nil in Hf.
    + intros q Hin. rewrite <- Hperm in Hin.
      apply elem_of_cons in Hin as [->|Hin]; [done|].
      apply StronglySorted_inv in Hsorted as [_ Hall].
      rewrite Forall_forall in Hall. by apply Hall.
Qed.

(** X15.  The active section by position, without reference to sorting: it
    is the id of a registered heading of level 2 or 3 at or above the
    threshold line that has the greatest top among those, or, when there is
    no such heading, the id of a registered heading with the least top of
    all. *)
Theorem onScroll_extremal hs vp :
  hs <> [] ->
  exists h, h ∈ hs /\ onScroll hs vp = Some (id h)
    /\ ((Qualifies (pageYOffset vp + scrollMt vp + 1) h
         /\ forall q, q ∈ hs -> Qualifies (pageYOffset vp + scrollMt vp + 1) q ->
                      top q <= top h)
        \/ ((forall q, q ∈ hs -> ~ Qualifies (pageYOffset vp + scrollMt vp + 1) q)
            /\ forall q, q ∈ hs -> top h <= top q)).
Proof. apply onScroll_extremal_aux. Qed.

Lemma onScroll_extremal_witness :
  headings_title_intro <> []
  /\ exists h, h ∈ headings_title_intro
      /\ onScroll headings_title_intro {| pageYOffset := 0; scrollMt := 0 |}
         = Some (id h).
Proof.
  split; [discriminate|].
  destruct (onScroll_extremal headings_title_intro
              {| pageYOffset := 0; scrollMt := 0 |})
    as (h & Hin & Hs & _); [discriminate|].
  exists h. split; [exact Hin|exact Hs].
Defined.

(** X16.  Scrolling down never moves the active section up the page: for a
    larger threshold the active heading has the same or a greater top. *)
Theorem onScroll_monotone hs vp vp' :
  hs <> [] ->
  pageYOffset vp + scrollMt vp <= pageYOffset vp' + scrollMt vp' ->
  exists h h', h ∈ hs /\ h' ∈ hs
    /\ onScroll hs vp = Some (id h) /\ onScroll hs vp' = Some (id h')
    /\ top h <= top h'.
Proof.
  intros Hne Hle.
  destruct (onScroll_extremal_aux hs vp Hne) as (h & Hin & Hs & Hcase).
  destruct (onScroll_extremal_aux hs vp' Hne) as (h' & Hin' & Hs' & Hcase').
  exists h, h'. repeat (split; [done|]).
  assert (Hq' : Qualifies (thresholdY vp) h -> Qualifies (thresholdY vp') h).
  { unfold Qualifies, thresholdY. intros [Htop Hlevel]. split; [lia|done]. }
  destruct Hcase as [[Hq _]|[_ Hmin]]; [|by apply Hmin].
  destruct Hcase' as [[_ Hmax]|[Hnone _]].
  - apply Hmax; [done|]. by apply Hq'.
  - destruct (Hnone h Hin). by apply Hq'.
Qed.

Lemma onScroll_monotone_witness :
  headings_intro_setup_usage <> []
  /\ exists h h', h ∈ headings_intro_setup_usage
      /\ h' ∈ headings_intro_setup_usage
      /\ onScroll headings_intro_setup_usage {| pageYOffset := 100; scrollMt := 0 |}
         = Some (id h)
      /\ onScroll headings_intro_setup_usage {| pageYOffset := 700; scrollMt := 0 |}
         = Some (id h')
      /\ top h <= top h'.
Proof.
  split; [discriminate|].
  apply (onScroll_monotone headings_intro_setup_usage
           {| pageYOffset := 100; scrollMt := 0 |}
           {| pageYOffset := 700; scrollMt := 0 |}); [discriminate|].
  simpl. lia.
Defined.

Lemma NoDup_top_inj hs a b :
  NoDup (map top hs) -> a ∈ hs -> b ∈ hs -> top a = top b -> a = b.
Proof.
  induction hs as [|x hs IH]; intros Hnd Ha Hb Htop.
  - by apply elem_of_nil in Ha.
  - apply NoDup_cons in Hnd as [Hx Hnd].
    apply elem_of_cons in Ha as [->|Ha]; apply elem_of_cons in Hb as [->|Hb].
    + done.
    + exfalso. apply Hx. rewrite Htop. by apply (list_elem_of_fmap_2 top).
    + exfalso. apply Hx. rewrite <- Htop. by apply (list_elem_of_fmap_2 top).
    + by apply IH.
Qed.

(** X17.  The order of registration does not matter as long as no two
    registered headings have the same top: two lists with the same headings
    in different orders give the same active section. *)
Theorem onScroll_permutation hs hs' vp :
  hs ≡ₚ hs' -> NoDup (map top hs) -> onScroll hs vp = onScroll hs' vp.
Proof.
  intros Hperm Hnd.
  assert (Hsort : sort_by_top hs = sort_by_top hs').
  { pose proof by_top_transitive.
    apply (Sorted_unique_strong by_top).
    - intros x1 x2 Hx1 Hx2 H12 H21.
      rewrite sort_by_top_perm in Hx1. rewrite sort_by_top_perm, <- Hperm in Hx2.
      apply (NoDup_top_inj hs); [done..|]. unfold by_top in *. lia.
    - apply sort_by_top_sorted.
    - apply sort_by_top_sorted.
    - by rewrite !sort_by_top_perm. }
  unfold onScroll. by rewrite Hsort.
Qed.

Lemma onScroll_permutation_witness :
  [ {| id := "usage"; top := 1000; level := 3 |};
    {| id := "intro"; top := 0; level := 2 |};
    {| id := "setup"; top := 500; level := 2 |} ]
    ≡ₚ headings_intro_setup_usage
  /\ onScroll [ {| id := "usage"; top := 1000; level := 3 |};
               {| id := "intro"; top := 0; level := 2 |};
               {| id := "setup"; top := 500; level := 2 |} ]
             {| pageYOffset := 599; scrollMt := 0 |}
     = onScroll headings_intro_setup_usage {| pageYOffset := 599; scrollMt := 0 |}.
Proof.
  assert (Hperm : [ {| id := "usage"; top := 1000; level := 3 |};
                    {| id := "intro"; top := 0; level := 2 |};
                    {| id := "setup"; top := 500; level := 2 |} ]
                  ≡ₚ headings_intro_setup_usage).
  { unfold headings_intro_setup_usage.
    etransitivity; [apply Permutation_swap|]. apply Permutation_skip.
    apply Permutation_swap. }
  split; [exact Hperm|].
  apply (onScroll_permutation _ _ _ Hperm).
  simpl. repeat (apply NoDup_cons; split;
    [intros Hin; repeat (apply elem_of_cons in Hin as [Hin|Hin]; [discriminate|]);
     by apply elem_of_nil in Hin|]).
  apply NoDup_nil_2.
Defined.

End TrackerRuns.

(** ** Edge behaviour of ids and of ties *)

Section Edges.

Implicit Types (c : ascii) (s : string) (h q : ContentHeading)
  (hs : list ContentHeading) (vp : Viewport).

Lemma whitespace_not_question_mark c :
  is_whitespace c = true -> Ascii.eqb c "?" = false.
Proof. destruct c as [[] [] [] [] [] [] [] []]; vm_compute; congruence. Qed.

(** X18.  The derived id is not trimmed: a heading text that starts with
    whitespace gets an id that starts with a hyphen. *)
Theorem generateID_leading_whitespace c s :
  is_whitespace c = true ->
  exists rest, generateID [Scalar (VStr (String c s))] ∅ = String "-" rest.
Proof.
  intros Hc.
  change (exists rest, derived_id [Scalar (VStr (String c s))] = String "-" rest).
  unfold derived_id, join_string_children, replace_whitespace_runs. simpl.
  rewrite (whitespace_not_question_mark c Hc). simpl. rewrite Hc. simpl.
  eauto.
Qed.

Lemma generateID_leading_whitespace_witness :
  is_whitespace " " = true
  /\ exists rest, generateID [Scalar (VStr " Intro")] ∅ = String "-" rest.
Proof.
  split; [reflexivity|].
  apply (generateID_leading_whitespace " " "Intro"). reflexivity.
Defined.





End Edges.
